(** * ShutterPy Pro: the compositing pipeline and the capture history

    A shallow embedding of [screenshot_editor.py]: the two image stages
    [round_image] and [add_background], and the editor entry points
    [take_screenshot] and [apply_effects] of [ScreenshotEditor].

    Pillow images are mutable objects.  They live in an object store and the
    program handles references to them; [copy], [Image.new], [filter],
    [resize], [convert] and [alpha_composite] allocate, [putalpha], [paste]
    and the [ImageDraw] calls update an object in place.  Exceptions leave
    the store as it was when they were raised. *)

From Stdlib Require Import ZArith Bool Lia.
From stdpp Require Import base list strings gmap.

Local Open Scope Z_scope.

(** ** Rasters *)

(** An RGBA pixel, as the Python tuple [(r, g, b, a)]. *)
Definition rgba : Type := Z * Z * Z * Z.

Definition alpha_of (p : rgba) : Z := snd p.
Definition set_alpha (p : rgba) (a : Z) : rgba := (fst p, a).

(** Pillow stores 8-bit bands: a colour given as integers is clipped. *)
Definition clip8 (v : Z) : Z := Z.max 0 (Z.min 255 v).

Definition ink (c : rgba) : rgba :=
  let '(r, g, b, a) := c in (clip8 r, clip8 g, clip8 b, clip8 a).

(** A mode ["RGBA"] image: its [size] is [(width, height)], its pixels are
    kept row by row. *)
Record Image := mkImage { size : Z * Z; data : list rgba }.

(** A mode ["L"] image (one band), the kind [round_image] draws its mask on. *)
Record Mask := mkMask { msize : Z * Z; mdata : list Z }.

Definition width (im : Image) : Z := fst (size im).
Definition height (im : Image) : Z := snd (size im).

Definition area (sz : Z * Z) : nat := Z.to_nat (fst sz * snd sz).

Definition wf_image (im : Image) : Prop :=
  0 <= width im /\ 0 <= height im /\ length (data im) = area (size im).

Definition in_bounds (sz : Z * Z) (x y : Z) : bool :=
  (0 <=? x) && (x <? fst sz) && (0 <=? y) && (y <? snd sz).

Definition offset_of (sz : Z * Z) (x y : Z) : nat := Z.to_nat (y * fst sz + x).

Definition getpixel (im : Image) (x y : Z) : option rgba :=
  if in_bounds (size im) x y then data im !! offset_of (size im) x y else None.

Definition getmask (m : Mask) (x y : Z) : option Z :=
  if in_bounds (msize m) x y then mdata m !! offset_of (msize m) x y else None.

Definition size_eqb (a b : Z * Z) : bool :=
  (fst a =? fst b) && (snd a =? snd b).

(** ** The object store and the monad of the embedding *)

Definition iref := nat.
Definition mref := nat.

Record World := mkWorld { images : list Image; masks : list Mask }.

(** [BadReference] is not a Python exception: it is what the embedding
    answers on a reference the store does not hold, which no run started from
    references into the store produces. *)
Inductive exn := ValueError | RecursionError | BadReference.

Inductive outcome (A : Type) :=
| Ok (a : A)
| Raise (e : exn).
Arguments Ok {A} a.
Arguments Raise {A} e.

Definition M (S A : Type) : Type := S -> outcome A * S.

Definition ret {S A} (a : A) : M S A := fun s => (Ok a, s).
Definition raise {S A} (e : exn) : M S A := fun s => (Raise e, s).
Definition bind {S A B} (m : M S A) (k : A -> M S B) : M S B :=
  fun s => match m s with
           | (Ok a, s') => k a s'
           | (Raise e, s') => (Raise e, s')
           end.

Declare Scope py_scope.
Delimit Scope py_scope with py.
Notation "x <- m ;; k" := (bind m (fun x => k))
  (at level 100, m at next level, right associativity) : py_scope.
Notation "m ;;; k" := (bind m (fun _ => k))
  (at level 100, right associativity) : py_scope.
Local Open Scope py_scope.

Definition alloc_image (im : Image) : M World iref :=
  fun W => (Ok (length (images W)), mkWorld (images W ++ [im]) (masks W)).

Definition get_image (r : iref) : M World Image :=
  fun W => match images W !! r with
           | Some im => (Ok im, W)
           | None => (Raise BadReference, W)
           end.

Definition put_image (r : iref) (im : Image) : M World unit :=
  fun W => (Ok tt, mkWorld (<[r := im]> (images W)) (masks W)).

Definition alloc_mask (m : Mask) : M World mref :=
  fun W => (Ok (length (masks W)), mkWorld (images W) (masks W ++ [m])).

Definition get_mask (r : mref) : M World Mask :=
  fun W => match masks W !! r with
           | Some m => (Ok m, W)
           | None => (Raise BadReference, W)
           end.

Definition put_mask (r : mref) (m : Mask) : M World unit :=
  fun W => (Ok tt, mkWorld (images W) (<[r := m]> (masks W))).

(** The raster a run hands back: the object behind the returned reference. *)
Definition result_of (r : outcome iref * World) : outcome Image :=
  match r with
  | (Ok x, W) => match images W !! x with
                 | Some im => Ok im
                 | None => Raise BadReference
                 end
  | (Raise e, _) => Raise e
  end.

Definition pixel_of (o : outcome Image) (x y : Z) : option rgba :=
  match o with
  | Ok im => getpixel im x y
  | Raise _ => None
  end.

(** The object behind an optional reference. *)
Definition holds (W : World) (o : option iref) (v : option Image) : Prop :=
  match o, v with
  | Some r, Some im => images W !! r = Some im
  | None, None => True
  | _, _ => False
  end.

(** Every image of the store [W] is in [l], unchanged and at its place. *)
Definition keeps (W : World) (l : list Image) : Prop :=
  forall i x, images W !! i = Some x -> l !! i = Some x.

(** ** Pillow *)

(** Pasting [src] (optionally through the alpha band of [mask]) with its top
    left corner at [(x0, y0)]: the region is clipped to the destination. *)
Definition paste_data (blend : rgba -> rgba -> Z -> rgba)
    (dst src : Image) (mask : option Image) (x0 y0 : Z) : list rgba :=
  imap (fun i d =>
          let x := Z.of_nat i mod width dst in
          let y := Z.of_nat i / width dst in
          match getpixel src (x - x0) (y - y0) with
          | Some s =>
              match mask with
              | None => s
              | Some m =>
                  match getpixel m (x - x0) (y - y0) with
                  | Some a => blend d s (alpha_of a)
                  | None => d
                  end
              end
          | None => d
          end) (data dst).

(** The pixel kernels of Pillow are C code outside the repository: they
    are parameters of the development.  A kernel is a function: that the
    call of Pillow behind it returns is taken for granted, and no statement
    below is evidence for it. *)
Record Kernels := mkKernels {
  (** [ImageDraw.rounded_rectangle xy radius fill] on a mode ["L"] image of
      the given size and pixels: the pixels after the call. *)
  draw_rounded_rectangle : Z * Z -> list Z -> Z * Z * Z * Z -> Z -> Z -> list Z;
  (** [ImageFilter.GaussianBlur(radius)] on the pixels of an image. *)
  gaussian_blur : Z * Z -> list rgba -> Z -> list rgba;
  (** [Image.LANCZOS] resampling of an image to a new size. *)
  lanczos : Image -> Z * Z -> list rgba;
  (** One pixel of [Image.alpha_composite]: destination, source. *)
  composite_px : rgba -> rgba -> rgba;
  (** One pixel of [Image.paste] with a mask: destination, source, mask. *)
  paste_px : rgba -> rgba -> Z -> rgba
}.

(** Drawing keeps the number of pixels of the image drawn on. *)
Definition draw_keeps_length (K : Kernels) : Prop :=
  forall sz px xy radius fill,
    length (draw_rounded_rectangle K sz px xy radius fill) = length px.

Section Pillow.

Variable K : Kernels.

(** [Image.new("RGBA", size, color)].  Pillow refuses a negative side
    with [ValueError].  It also gives up on a size it cannot hold (a side
    that does not fit a C [int] raises [OverflowError], pixels that do not
    fit the memory raise [MemoryError]): such sizes are outside this model,
    and the statements below that a call returns are made for sizes
    [within_limits]. *)
Definition Image_new (sz : Z * Z) (color : rgba) : M World iref :=
  if (fst sz <? 0) || (snd sz <? 0) then raise ValueError
  else alloc_image (mkImage sz (replicate (area sz) (ink color))).

(** [Image.new('L', size, color)], with the same limits. *)
Definition Image_new_L (sz : Z * Z) (color : Z) : M World mref :=
  if (fst sz <? 0) || (snd sz <? 0) then raise ValueError
  else alloc_mask (mkMask sz (replicate (area sz) (clip8 color))).

(** [im.copy()] *)
Definition Image_copy (r : iref) : M World iref :=
  im <- get_image r ;; alloc_image im.

(** [ImageDraw.Draw(mask).rounded_rectangle(xy, radius, fill=fill)] *)
Definition ImageDraw_rounded_rectangle
    (mask : mref) (xy : Z * Z * Z * Z) (radius fill : Z) : M World unit :=
  m <- get_mask mask ;;
  put_mask mask
    (mkMask (msize m) (draw_rounded_rectangle K (msize m) (mdata m) xy radius fill)).

(** [im.putalpha(mask)]: the alpha band of [im] becomes the band of
    [mask]; the two must have one size. *)
Definition Image_putalpha (r : iref) (mask : mref) : M World unit :=
  im <- get_image r ;;
  m <- get_mask mask ;;
  if size_eqb (size im) (msize m)
  then put_image r (mkImage (size im) (zip_with set_alpha (data im) (mdata m)))
  else raise ValueError.

(** [im.filter(ImageFilter.GaussianBlur(radius=radius))] *)
Definition Image_filter_GaussianBlur (r : iref) (radius : Z) : M World iref :=
  im <- get_image r ;;
  alloc_image (mkImage (size im) (gaussian_blur K (size im) (data im) radius)).

(** [dst.paste(src, (x, y))] *)
Definition Image_paste (dst src : iref) (xy : Z * Z) : M World unit :=
  d <- get_image dst ;;
  s <- get_image src ;;
  put_image dst
    (mkImage (size d) (paste_data (paste_px K) d s None (fst xy) (snd xy))).

(** [dst.paste(src, (x, y), mask)] *)
Definition Image_paste_mask (dst src : iref) (xy : Z * Z) (mask : iref)
    : M World unit :=
  d <- get_image dst ;;
  s <- get_image src ;;
  m <- get_image mask ;;
  if size_eqb (size s) (size m)
  then put_image dst
         (mkImage (size d) (paste_data (paste_px K) d s (Some m) (fst xy) (snd xy)))
  else raise ValueError.

(** [Image.alpha_composite(im1, im2)]: the sizes must agree. *)
Definition Image_alpha_composite (im1 im2 : iref) : M World iref :=
  a <- get_image im1 ;;
  b <- get_image im2 ;;
  if size_eqb (size a) (size b)
  then alloc_image (mkImage (size a) (zip_with (composite_px K) (data a) (data b)))
  else raise ValueError.

(** [im.resize(size, Image.LANCZOS)]: a copy when the size is already the
    one asked for, an error on an empty target. *)
Definition Image_resize (r : iref) (sz : Z * Z) : M World iref :=
  im <- get_image r ;;
  if size_eqb (size im) sz then alloc_image im
  else if (fst sz <? 1) || (snd sz <? 1) then raise ValueError
  else alloc_image (mkImage sz (lanczos K im sz)).

(** [im.convert("RGBA")] on an image that is RGBA already. *)
Definition Image_convert_RGBA (r : iref) : M World iref := Image_copy r.

(** ** Image processing functions *)

Definition round_image (pil_image : iref) (corner_radius : Z) : M World iref :=
  if corner_radius <=? 0 then ret pil_image
  else
    im <- get_image pil_image ;;
    let '(w, h) := size im in
    mask <- Image_new_L (w, h) 0 ;;
    ImageDraw_rounded_rectangle mask (0, 0, w, h) corner_radius 255 ;;;
    out <- Image_copy pil_image ;;
    Image_putalpha out mask ;;;
    ret out.

(** The mask [round_image] draws for an image of size [sz], and the raster
    it hands back for a positive radius. *)
Definition corner_mask (sz : Z * Z) (radius : Z) : Mask :=
  mkMask sz (draw_rounded_rectangle K sz (replicate (area sz) (clip8 0))
               (0, 0, fst sz, snd sz) radius 255).

Definition rounded (im : Image) (radius : Z) : Image :=
  mkImage (size im)
    (zip_with set_alpha (data im) (mdata (corner_mask (size im) radius))).

(** The block under [# Create shadow if enabled]. *)
Definition create_shadow (fg_image : iref) (padding shadow_opacity : Z)
    (shadow_offset : Z * Z) : M World iref :=
  fg <- get_image fg_image ;;
  shadow <- Image_new (size fg) (0, 0, 0, shadow_opacity) ;;
  shadow_blur <- Image_filter_GaussianBlur shadow 10 ;;
  (* Create shadow canvas *)
  let shadow_w := width fg + 2 * padding + fst shadow_offset in
  let shadow_h := height fg + 2 * padding + snd shadow_offset in
  shadow_canvas <- Image_new (shadow_w, shadow_h) (0, 0, 0, 0) ;;
  Image_paste shadow_canvas shadow_blur
    (padding + fst shadow_offset, padding + snd shadow_offset) ;;;
  ret shadow_canvas.

(** The block under [# Create background canvas]. *)
Definition create_background (fg_image : iref) (bg_mode : string)
    (color : rgba) (bg_image : option iref) (padding : Z) : M World iref :=
  fg <- get_image fg_image ;;
  let '(w_fg, h_fg) := size fg in
  let new_w := w_fg + 2 * padding in
  let new_h := h_fg + 2 * padding in
  match (bg_mode =? "image")%string, bg_image with
  | true, Some bg =>
      resized <- Image_resize bg (new_w, new_h) ;;
      Image_convert_RGBA resized
  | _, _ => Image_new (new_w, new_h) color
  end.

(** [add_background], with its first two blocks above and the block under
    [# Composite elements] in place.  [depth] bounds the nesting of calls, as
    the interpreter's recursion limit does: a call with no depth left raises
    [RecursionError].  Python evaluates the arguments of the outer
    [Image.alpha_composite] from left to right, so the inner composite runs
    before the nested call.  The variable [shadow_canvas] is bound exactly
    when [shadow_enabled] holds. *)
Fixpoint add_background (depth : nat) (fg_image : iref) (bg_mode : string)
    (color : rgba) (bg_image : option iref) (padding : Z)
    (shadow_enabled : bool) (shadow_opacity : Z) (shadow_offset : Z * Z)
    {struct depth} : M World iref :=
  match depth with
  | O => raise RecursionError
  | S depth' =>
      shadow_canvas <-
        (if shadow_enabled then
           shadow_canvas <- create_shadow fg_image padding shadow_opacity
                              shadow_offset ;;
           ret (Some shadow_canvas)
         else ret None) ;;
      back <- create_background fg_image bg_mode color bg_image padding ;;
      back <-
        (match shadow_canvas with
         | Some shadow_canvas =>
             under <- Image_alpha_composite back shadow_canvas ;;
             over <- add_background depth' fg_image "color" (0, 0, 0, 0) None
                       padding true 30 (8, 8) ;;
             Image_alpha_composite under over
         | None => ret back
         end) ;;
      Image_paste_mask back fg_image (padding, padding) fg_image ;;;
      ret back
  end.

(** The rasters [add_background] builds, as values: the canvas size, the
    background layer (or the error of building it), and the background with
    the foreground pasted through its own alpha at [(padding, padding)]. *)
Definition canvas_size (fg : Image) (padding : Z) : Z * Z :=
  (width fg + 2 * padding, height fg + 2 * padding).

Definition solid (sz : Z * Z) (color : rgba) : Image :=
  mkImage sz (replicate (area sz) (ink color)).

Definition backdrop (fg : Image) (bg_mode : string) (color : rgba)
    (bg : option Image) (padding : Z) : outcome Image :=
  let sz := canvas_size fg padding in
  match (bg_mode =? "image")%string, bg with
  | true, Some b =>
      if size_eqb (size b) sz then Ok b
      else if (fst sz <? 1) || (snd sz <? 1) then Raise ValueError
      else Ok (mkImage sz (lanczos K b sz))
  | _, _ =>
      if (fst sz <? 0) || (snd sz <? 0) then Raise ValueError
      else Ok (solid sz color)
  end.

Definition framed (back fg : Image) (padding : Z) : Image :=
  mkImage (size back) (paste_data (paste_px K) back fg (Some fg) padding padding).

Definition composed (fg : Image) (bg_mode : string) (color : rgba)
    (bg : option Image) (padding : Z) : outcome Image :=
  match backdrop fg bg_mode color bg padding with
  | Ok back => Ok (framed back fg padding)
  | Raise e => Raise e
  end.

(** The shadow layer of [create_shadow], before the blur. *)
Definition shadow_layer (fg : Image) (shadow_opacity : Z) : Image :=
  solid (size fg) (0, 0, 0, shadow_opacity).

End Pillow.

(** ** Screenshot editor *)

(** The parameters of a render, the editor's fields that [apply_effects]
    reads. *)
Record RenderConfig := mkConfig {
  corner_radius : Z;
  padding : Z;
  bg_mode : string;
  bg_color : rgba;
  bg_image : option iref;
  shadow_enabled : bool;
  shadow_opacity : Z
}.

(** Modelled from the spec: the entry of the undo and redo stacks.  The
    source file ends inside [apply_effects], before [push_undo], [undo] and
    [redo]; the spec's snapshot is the capture together with the
    configuration. *)
Definition Snapshot : Type := iref * RenderConfig.

(** The fields of [ScreenshotEditor] set by [_setup_state] that the history
    and the pipeline use.  Python lists grow at their end: the top of a stack
    is its last element. *)
Record Editor := mkEditor {
  config : RenderConfig;
  original_image : option iref;
  final_image : option iref;
  undo_stack : list Snapshot;
  redo_stack : list Snapshot
}.

Record App := mkApp { self : Editor; store : World }.

Definition in_store {A} (m : M World A) : M App A :=
  fun s => let '(r, W) := m (store s) in (r, mkApp (self s) W).

Definition get_self : M App Editor := fun s => (Ok (self s), s).

Definition set_self (f : Editor -> Editor) : M App unit :=
  fun s => (Ok tt, mkApp (f (self s)) (store s)).

Definition set_config (c : RenderConfig) (e : Editor) : Editor :=
  mkEditor c (original_image e) (final_image e) (undo_stack e) (redo_stack e).
Definition set_original_image (o : option iref) (e : Editor) : Editor :=
  mkEditor (config e) o (final_image e) (undo_stack e) (redo_stack e).
Definition set_final_image (o : option iref) (e : Editor) : Editor :=
  mkEditor (config e) (original_image e) o (undo_stack e) (redo_stack e).
Definition set_undo_stack (l : list Snapshot) (e : Editor) : Editor :=
  mkEditor (config e) (original_image e) (final_image e) l (redo_stack e).
Definition set_redo_stack (l : list Snapshot) (e : Editor) : Editor :=
  mkEditor (config e) (original_image e) (final_image e) (undo_stack e) l.

(** [_setup_state] *)
Definition setup_state : Editor :=
  mkEditor (mkConfig 30 50 "color" (255, 255, 255, 255) None true 30)
           None None [] [].

Section ScreenshotEditor.

(** Python looks the module's functions up when they are called: the editor
    is written over the two stages it calls. *)
Variable round_image_stage : iref -> Z -> M World iref.
Variable add_background_stage :
  iref -> string -> rgba -> option iref -> Z -> bool -> Z -> M World iref.

(** [apply_effects].  The source stops in the statement after the
    assignment to [final_image], a call that draws on the canvas widget. *)
Definition apply_effects : M App unit :=
  e <- get_self ;;
  match original_image e with
  | None => ret tt
  | Some original =>
      let c := config e in
      sc_rounded <- in_store (round_image_stage original (corner_radius c)) ;;
      with_bg <- in_store (add_background_stage sc_rounded (bg_mode c)
                             (bg_color c) (bg_image c) (padding c)
                             (shadow_enabled c) (shadow_opacity c)) ;;
      final <- in_store (round_image_stage with_bg (corner_radius c)) ;;
      set_self (set_final_image (Some final))
  end.

(** Modelled from the spec: [push_undo], which the source calls and does not
    show.  It pushes the capture and configuration in force on the undo
    stack and clears the redo stack; without a capture there is nothing to
    push. *)
Definition push_undo : M App unit :=
  e <- get_self ;;
  match original_image e with
  | Some capture =>
      set_self (set_undo_stack (undo_stack e ++ [(capture, config e)])) ;;;
      set_self (set_redo_stack [])
  | None => ret tt
  end.

(** [take_screenshot].  [capture_screenshot] and [Image.open] are the
    platform's: [captured] is the raster they deliver. *)
Definition take_screenshot (captured : Image) : M App unit :=
  e <- get_self ;;
  (match original_image e with
   | Some _ =>
       push_undo ;;;
       set_self (set_redo_stack [])
   | None => ret tt
   end) ;;;
  opened <- in_store (alloc_image captured) ;;
  converted <- in_store (Image_convert_RGBA opened) ;;
  set_self (set_original_image (Some converted)) ;;;
  apply_effects.

(** Modelled from the spec: a parameter change replaces the configuration
    and renders again; it pushes no history. *)
Definition change_config (c : RenderConfig) : M App unit :=
  set_self (set_config c) ;;;
  apply_effects.

(** Modelled from the spec: [undo] does nothing on an empty undo stack;
    otherwise it pops the top snapshot, pushes the current state on the redo
    stack, installs the popped snapshot and renders again. *)
Definition undo : M App unit :=
  e <- get_self ;;
  match last (undo_stack e), original_image e with
  | Some (capture, c), Some current =>
      set_self (set_undo_stack (removelast (undo_stack e))) ;;;
      set_self (set_redo_stack (redo_stack e ++ [(current, config e)])) ;;;
      set_self (set_original_image (Some capture)) ;;;
      set_self (set_config c) ;;;
      apply_effects
  | _, _ => ret tt
  end.

(** Modelled from the spec: [redo], the inverse of [undo]. *)
Definition redo : M App unit :=
  e <- get_self ;;
  match last (redo_stack e), original_image e with
  | Some (capture, c), Some current =>
      set_self (set_redo_stack (removelast (redo_stack e))) ;;;
      set_self (set_undo_stack (undo_stack e ++ [(current, config e)])) ;;;
      set_self (set_original_image (Some capture)) ;;;
      set_self (set_config c) ;;;
      apply_effects
  | _, _ => ret tt
  end.

(** The states of a session: the editor starts from [_setup_state] and
    every later state comes from an action on an earlier one.  Cropping, of
    which the source shows the button only, is left out. *)
Inductive reachable : App -> Prop :=
| reach_start W :
    reachable (mkApp setup_state W)
| reach_take_screenshot s captured :
    reachable s -> reachable (snd (take_screenshot captured s))
| reach_apply_effects s :
    reachable s -> reachable (snd (apply_effects s))
| reach_change_config s c :
    reachable s -> reachable (snd (change_config c s))
| reach_undo s :
    reachable s -> reachable (snd (undo s))
| reach_redo s :
    reachable s -> reachable (snd (redo s)).

End ScreenshotEditor.


(** ** A set of kernels to run the definitions with

    The examples below need kernels to compute with.  These are stand-ins,
    not Pillow's: the rasterizer fills a rounded box decided geometrically on
    doubled coordinates (the inscribed ellipse once both pairs of corners
    join), the blur is the identity, resizing takes the nearest pixel and the
    blends are integer mixes.  Pillow draws other masks on some boxes, so an
    example says what the code does with the kernels' answers, never what
    the kernels of Pillow answer. *)
Module Sample.

Definition in_ellipse (x0 y0 x1 y1 x y : Z) : bool :=
  let a := x1 - x0 in
  let b := y1 - y0 in
  let u := 2 * x - (x0 + x1) in
  let v := 2 * y - (y0 + y1) in
  (u * u * (b * b) + v * v * (a * a) <=? a * a * (b * b)).

Definition in_rounded (x0 y0 x1 y1 d x y : Z) : bool :=
  let ex := Z.max 0 (Z.max (2 * x0 + d - 2 * x) (2 * x - (2 * x1 - d))) in
  let ey := Z.max 0 (Z.max (2 * y0 + d - 2 * y) (2 * y - (2 * y1 - d))) in
  (x0 <=? x) && (x <=? x1) && (y0 <=? y) && (y <=? y1)
  && (ex * ex + ey * ey <=? d * d).

Definition in_shape (xy : Z * Z * Z * Z) (radius x y : Z) : bool :=
  let '(x0, y0, x1, y1) := xy in
  let d := 2 * radius in
  let full_x := x1 - x0 <=? d in
  let d := if full_x then x1 - x0 else d in
  let full_y := y1 - y0 <=? d in
  let d := if full_y then y1 - y0 else d in
  if full_x && full_y then in_ellipse x0 y0 x1 y1 x y
  else in_rounded x0 y0 x1 y1 d x y.

Definition draw_rounded_rectangle (sz : Z * Z) (px : list Z)
    (xy : Z * Z * Z * Z) (radius fill : Z) : list Z :=
  imap (fun i v =>
          if in_shape xy radius (Z.of_nat i mod fst sz) (Z.of_nat i / fst sz)
          then clip8 fill else v) px.

Definition gaussian_blur (sz : Z * Z) (px : list rgba) (radius : Z) : list rgba :=
  px.

Definition lanczos (im : Image) (sz : Z * Z) : list rgba :=
  imap (fun i _ =>
          let x := Z.of_nat i mod fst sz in
          let y := Z.of_nat i / fst sz in
          default (0, 0, 0, 0)
            (getpixel im (x * width im / fst sz) (y * height im / snd sz)))
       (replicate (area sz) (0, 0, 0, 0)).

Definition mix (m a b : Z) : Z := (a * (255 - m) + b * m) / 255.

Definition paste_px (d s : rgba) (m : Z) : rgba :=
  let '(dr, dg, db, da) := d in
  let '(sr, sg, sb, sa) := s in
  (mix m dr sr, mix m dg sg, mix m db sb, mix m da sa).

Definition composite_px (d s : rgba) : rgba :=
  let '(dr, dg, db, da) := d in
  let '(sr, sg, sb, sa) := s in
  (mix sa dr sr, mix sa dg sg, mix sa db sb, sa + da * (255 - sa) / 255).

Definition kernels : Kernels :=
  mkKernels draw_rounded_rectangle gaussian_blur lanczos composite_px paste_px.

(** The stages as the editor calls them: [apply_effects] leaves
    [shadow_offset] at its default. *)
Definition round_image_stage : iref -> Z -> M World iref :=
  round_image kernels.

Definition add_background_stage (fg : iref) (bg_mode : string) (color : rgba)
    (bg : option iref) (padding : Z) (shadow_enabled : bool)
    (shadow_opacity : Z) : M World iref :=
  add_background kernels 1000 fg bg_mode color bg padding shadow_enabled
    shadow_opacity (8, 8).

(** Rasters and stores to run on. *)
Definition white : rgba := (255, 255, 255, 255).

Definition dot : Image := mkImage (1, 1) [(200, 100, 50, 255)].


Definition clear3 : Image := mkImage (3, 3) (replicate 9 (10, 20, 30, 0)).

Definition half : Image := mkImage (2, 1) [(9, 9, 9, 255); (9, 9, 9, 0)].

Definition holding (im : Image) : World := mkWorld [im] [].

Definition fresh_editor : App := mkApp setup_state (mkWorld [] []).

(** An editor whose capture is the first raster of the store. *)
Definition editing (c : RenderConfig) (im : Image) : App :=
  mkApp (mkEditor c (Some 0%nat) None [] []) (holding im).

Definition flat_config : RenderConfig :=
  mkConfig 30 50 "color" white None false 30.

End Sample.

(** ** The sizes Pillow allocates *)

(** [Image.new] and [resize] take the sides as C integers and the pixels
    from memory.  The statements that a stage returns are made for canvases
    of at most [MAX_SIDE] pixels a side, a size far below both limits. *)
Definition MAX_SIDE : Z := 8192.

Definition within_limits (sz : Z * Z) : Prop :=
  - MAX_SIDE <= fst sz <= MAX_SIDE /\ - MAX_SIDE <= snd sz <= MAX_SIDE.

(** ** The editor over the stages of this file *)

(** [apply_effects] does not pass [shadow_offset]: [add_background] runs
    with its default, [(8, 8)]. *)
Definition add_background_default (K : Kernels) (depth : nat) (fg : iref)
    (bg_mode : string) (color : rgba) (bg : option iref) (padding : Z)
    (shadow_enabled : bool) (shadow_opacity : Z) : M World iref :=
  add_background K depth fg bg_mode color bg padding shadow_enabled
    shadow_opacity (8, 8).

Definition render (K : Kernels) (depth : nat) : M App unit :=
  apply_effects (round_image K) (add_background_default K depth).

Definition capture (K : Kernels) (depth : nat) (captured : Image) : M App unit :=
  take_screenshot (round_image K) (add_background_default K depth) captured.

(** The three stage calls of [apply_effects], from [sc_rounded = ...] to
    the right-hand side of [self.final_image = ...]. *)
Definition render_stages (K : Kernels) (depth : nat) (c : RenderConfig)
    (original : iref) : M World iref :=
  sc_rounded <- round_image K original (corner_radius c) ;;
  with_bg <- add_background_default K depth sc_rounded (bg_mode c) (bg_color c)
               (bg_image c) (padding c) (shadow_enabled c) (shadow_opacity c) ;;
  round_image K with_bg (corner_radius c).

(** The raster [apply_effects] stores in [final_image] when no stage raises:
    rounded, framed, rounded again. *)
Definition round_value (K : Kernels) (im : Image) (radius : Z) : Image :=
  if radius <=? 0 then im else rounded K im radius.

Definition rendered (K : Kernels) (c : RenderConfig) (im : Image)
    (bg : option Image) : outcome Image :=
  match composed K (round_value K im (corner_radius c)) (bg_mode c)
          (bg_color c) bg (padding c) with
  | Ok with_bg => Ok (round_value K with_bg (corner_radius c))
  | Raise e => Raise e
  end.

(** The kernels that keep the number of pixels they are given, or deliver
    the number asked for. *)
Definition lanczos_fills (K : Kernels) : Prop :=
  forall im sz, length (lanczos K im sz) = area sz.

Definition blur_keeps_length (K : Kernels) : Prop :=
  forall sz px radius, length (gaussian_blur K sz px radius) = length px.

(** ** The global hotkey (Cmd+8) *)

Definition COMMAND_FLAG_MASK : Z := Z.shiftl 1 20.
Definition DIGIT_8_KEY_CODE : Z := 28.

(** [Quartz.kCGEventKeyDown], the event type of a key press. *)
Definition kCGEventKeyDown : Z := 10.

(** What the callback reads of a Quartz event: [CGEventGetFlags] and the
    [kCGKeyboardEventKeycode] field. *)
Record CGEvent := mkEvent { event_flags : Z; event_keycode : Z }.

(** The [refcon] of the tap: [None], or an object.  The callback asks the
    object for its truth value and for an [on_global_hotkey] attribute, and
    may call the attribute, which returns or raises. *)
Record Refcon := mkRefcon {
  refcon_bool : bool;
  has_on_global_hotkey : bool;
  on_global_hotkey_returns : bool
}.

(** Python's [bool] of an integer. *)
Definition truthy (n : Z) : bool := negb (n =? 0).

(** [_tap_callback]: whether it called [refcon.on_global_hotkey()], and the
    event it returns; [None] in the second place when the exception of the
    handler leaves the callback instead.  [refcon and hasattr(...)] asks for
    the attribute of a true [refcon] only. *)
Definition _tap_callback (event_type : Z) (event : CGEvent)
    (refcon : option Refcon) : bool * option CGEvent :=
  if event_type =? kCGEventKeyDown then
    let flags := event_flags event in
    let keyCode := event_keycode event in
    let is_command_down := truthy (Z.land flags COMMAND_FLAG_MASK) in
    if is_command_down && (keyCode =? DIGIT_8_KEY_CODE) then
      match refcon with
      | Some r =>
          if refcon_bool r && has_on_global_hotkey r
          then (true, if on_global_hotkey_returns r then Some event else None)
          else (false, Some event)
      | None => (false, Some event)
      end
    else (false, Some event)
  else (false, Some event).

(** ** [GlobalHotkeyListener] *)

(** The calls the listener makes, in the order it makes them. *)
Inductive QuartzCall :=
| CGEventTapCreate (result : option nat)
| CFRunLoopAddSource (tap : nat)
| CGEventTapEnable (tap : nat) (enable : bool)
| sys_exit (status : Z).

Record Listener := mkListener { eventTap : option nat; calls : list QuartzCall }.

(** [start]: [created] is what [Quartz.CGEventTapCreate] answers.  The
    second component tells whether the interpreter goes on ([sys.exit] ends
    it). *)
Definition listener_start (created : option nat) (l : Listener)
    : Listener * bool :=
  let l := mkListener created (calls l ++ [CGEventTapCreate created]) in
  match eventTap l with
  | None => (mkListener (eventTap l) (calls l ++ [sys_exit 1]), false)
  | Some tap =>
      (mkListener (eventTap l)
         (calls l ++ [CFRunLoopAddSource tap; CGEventTapEnable tap true]), true)
  end.

(** [stop] *)
Definition listener_stop (l : Listener) : Listener :=
  match eventTap l with
  | Some tap => mkListener None (calls l ++ [CGEventTapEnable tap false])
  | None => l
  end.

Inductive listener_op := Start (created : nat) | Stop.

Definition listener_step (l : Listener) (op : listener_op) : Listener :=
  match op with
  | Start created => fst (listener_start (Some created) l)
  | Stop => listener_stop l
  end.

(** ** [ToolTip] *)

(** A [tk.Toplevel] window as the tooltip sets it up. *)
Record Toplevel := mkToplevel {
  alive : bool;
  overrideredirect : bool;
  geometry : Z * Z;
  label_text : string
}.

(** The windows of the application; a window is known by its index. *)
Definition Tk : Type := list Toplevel.

Record ToolTip := mkToolTip { text : string; tip_window : option nat }.

(** What [show_tip] asks the widget: [bbox("insert")], [winfo_rootx()] and
    [winfo_rooty()]. *)
Record Widget := mkWidget {
  bbox_insert : Z * Z * Z * Z;
  winfo_rootx : Z;
  winfo_rooty : Z
}.

(** Python's truth value of an attribute that holds [None] or a window. *)
Definition bound {A} (o : option A) : bool :=
  match o with
  | Some _ => true
  | None => false
  end.

Definition show_tip (widget : Widget) (t : ToolTip) (tk : Tk) : ToolTip * Tk :=
  if bound (tip_window t) || (text t =? "")%string then (t, tk)
  else
    let '(x, y, _, _) := bbox_insert widget in
    let x := x + (winfo_rootx widget + 25) in
    let y := y + (winfo_rooty widget + 25) in
    let tw := length tk in
    (mkToolTip (text t) (Some tw),
     tk ++ [mkToplevel true true (x, y) (text t)]).

Definition destroy (tw : nat) (tk : Tk) : Tk :=
  alter (fun w => mkToplevel false (overrideredirect w) (geometry w)
                    (label_text w)) tw tk.

Definition hide_tip (t : ToolTip) (tk : Tk) : ToolTip * Tk :=
  let tw := tip_window t in
  let t := mkToolTip (text t) None in
  match tw with
  | Some tw => (t, destroy tw tk)
  | None => (t, tk)
  end.

(** The two bindings of [__init__]: [<Enter>] and [<Leave>]. *)
Inductive tip_event := Enter (widget : Widget) | Leave.

Definition tip_step (s : ToolTip * Tk) (e : tip_event) : ToolTip * Tk :=
  match e with
  | Enter widget => show_tip widget (fst s) (snd s)
  | Leave => hide_tip (fst s) (snd s)
  end.

Definition tip_run (events : list tip_event) (s : ToolTip * Tk) : ToolTip * Tk :=
  foldl tip_step s events.

(** No window of [tk] is alive; [tw] is the one window of [tk] alive. *)
Definition no_window (tk : Tk) : Prop :=
  forall i w, tk !! i = Some w -> alive w = false.

Definition only_window (tw : nat) (tk : Tk) : Prop :=
  (exists w, tk !! tw = Some w /\ alive w = true)
  /\ forall i w, tk !! i = Some w -> alive w = true -> i = tw.

(** ** The icons *)

Definition ICONS : list (string * string) :=
  [("camera", "icons/camera.png");
   ("crop", "icons/crop.png");
   ("undo", "icons/undo.png");
   ("redo", "icons/redo.png");
   ("color", "icons/palette.png");
   ("image", "icons/image.png");
   ("save", "icons/save.png");
   ("copy", "icons/copy.png");
   ("shadow", "icons/shadow.png")]%string.

(** The loop of [_create_ui] over [ICONS.items()].  [load] is the body of
    the [try]: opening the file, resizing it and wrapping it for Tk; when it
    raises, the handler stores [None] under the name and the loop goes on. *)
Fixpoint load_icons (load : string -> M World nat)
    (items : list (string * string)) (icons : gmap string (option nat))
    : M World (gmap string (option nat)) :=
  match items with
  | [] => ret icons
  | (name, path) :: items =>
      fun W =>
        match load path W with
        | (Ok img, W') => load_icons load items (<[name := Some img]> icons) W'
        | (Raise _, W') => load_icons load items (<[name := None]> icons) W'
        end
  end.

(** * Properties *)

(** ** The store *)

Lemma bind_Ok {S A B} (m : M S A) (k : A -> M S B) s a s' :
  m s = (Ok a, s') -> bind m k s = k a s'.
Proof. intros H. unfold bind. now rewrite H. Qed.

Lemma bind_Raise {S A B} (m : M S A) (k : A -> M S B) s e s' :
  m s = (Raise e, s') -> bind m k s = (Raise e, s').
Proof. intros H. unfold bind. now rewrite H. Qed.

Lemma bind_ret {S A B} (a : A) (k : A -> M S B) s : bind (ret a) k s = k a s.
Proof. reflexivity. Qed.

Lemma bind_bind {S A B C} (m : M S A) (k1 : A -> M S B) (k2 : B -> M S C) s :
  bind (bind m k1) k2 s = bind m (fun a => bind (k1 a) k2) s.
Proof. unfold bind. now destruct (m s) as [[a | e] s']. Qed.

Lemma bind_Raise_fst {S A B} (m : M S A) (k : A -> M S B) s e :
  fst (m s) = Raise e -> fst (bind m k s) = Raise e.
Proof. unfold bind. destruct (m s) as [[a | e'] s']; cbn; congruence. Qed.

Lemma lookup_fresh {A} (l : list A) (x : A) : (l ++ [x]) !! length l = Some x.
Proof. now rewrite list_lookup_middle. Qed.

Lemma lookup_kept {A} (l : list A) (x y : A) (i : nat) :
  l !! i = Some y -> (l ++ [x]) !! i = Some y.
Proof. intros H. now apply lookup_app_l_Some. Qed.

Lemma insert_fresh {A} (l : list A) (x y : A) :
  <[length l := y]> (l ++ [x]) = l ++ [y].
Proof.
  rewrite insert_app_r_alt by lia.
  now replace (length l - length l)%nat with 0%nat by lia.
Qed.

Lemma get_image_run W r im :
  images W !! r = Some im -> get_image r W = (Ok im, W).
Proof. intros H. unfold get_image. now rewrite H. Qed.

Lemma get_mask_run W r m :
  masks W !! r = Some m -> get_mask r W = (Ok m, W).
Proof. intros H. unfold get_mask. now rewrite H. Qed.

Lemma size_eqb_refl sz : size_eqb sz sz = true.
Proof. unfold size_eqb. now rewrite !Z.eqb_refl. Qed.

Lemma size_eqb_eq a b : size_eqb a b = true <-> a = b.
Proof.
  unfold size_eqb. destruct a, b. cbn. rewrite andb_true_iff, !Z.eqb_eq.
  split; [intros [-> ->] | intros [= -> ->]]; auto.
Qed.

Lemma Image_new_run sz color W :
  0 <= fst sz -> 0 <= snd sz ->
  Image_new sz color W
  = (Ok (length (images W)), mkWorld (images W ++ [mkImage sz (replicate (area sz) (ink color))]) (masks W)).
Proof.
  intros H1 H2. unfold Image_new.
  destruct (Z.ltb_spec (fst sz) 0); [lia |].
  destruct (Z.ltb_spec (snd sz) 0); [lia |]. reflexivity.
Qed.

Lemma Image_new_negative sz color W :
  fst sz < 0 \/ snd sz < 0 -> Image_new sz color W = (Raise ValueError, W).
Proof.
  intros H. unfold Image_new.
  destruct (Z.ltb_spec (fst sz) 0); [reflexivity |].
  destruct (Z.ltb_spec (snd sz) 0); [reflexivity | lia].
Qed.

Section Properties.

Variable K : Kernels.

(** ** [round_image] *)

Lemma round_image_run W r im radius :
  images W !! r = Some im ->
  0 <= width im -> 0 <= height im -> 0 < radius ->
  round_image K r radius W
  = (Ok (length (images W)),
     mkWorld (images W ++ [rounded K im radius])
             (masks W ++ [corner_mask K (size im) radius])).
Proof.
  intros Hr Hw Hh Hrad. unfold round_image.
  destruct (Z.leb_spec radius 0); [lia |].
  rewrite (bind_Ok _ _ _ _ _ (get_image_run _ _ _ Hr)).
  destruct im as [[w h] px]. cbn [size] in *. unfold width, height in *. cbn in Hw, Hh.
  unfold Image_new_L. cbn [fst snd].
  destruct (Z.ltb_spec w 0); [lia |]. destruct (Z.ltb_spec h 0); [lia |].
  cbn [orb]. unfold bind at 1. cbn [alloc_mask masks images].
  unfold ImageDraw_rounded_rectangle, bind at 1. unfold bind at 1.
  unfold get_mask. cbn [masks images]. rewrite lookup_fresh.
  cbn [put_mask masks images msize mdata]. rewrite insert_fresh.
  unfold Image_copy, bind at 1. unfold bind at 1.
  unfold get_image. cbn [images masks]. rewrite Hr. cbn [alloc_image images masks].
  unfold Image_putalpha, bind at 1. unfold bind at 1.
  unfold get_image. cbn [images masks]. rewrite lookup_fresh.
  unfold bind at 1. unfold get_mask. cbn [images masks]. rewrite lookup_fresh.
  cbn [size msize]. rewrite size_eqb_refl.
  cbn [put_image images masks]. rewrite insert_fresh.
  reflexivity.
Qed.

(** C4.  With radius 0 (the guard is [corner_radius <= 0]) [round_image]
    returns the very reference it was given and leaves the store as it was:
    no image and no mask is allocated, and no object is changed. *)
Theorem round_image_radius_zero_identity (W : World) (r : iref) :
  round_image K r 0 W = (Ok r, W).
Proof. reflexivity. Qed.

Lemma round_image_nonpositive W r radius :
  radius <= 0 -> round_image K r radius W = (Ok r, W).
Proof.
  intros H. unfold round_image. now destruct (Z.leb_spec radius 0); [| lia].
Qed.

Hypothesis draw_length : draw_keeps_length K.

Lemma corner_mask_length sz radius :
  length (mdata (corner_mask K sz radius)) = area sz.
Proof. cbn. now rewrite draw_length, length_replicate. Qed.

Lemma offset_in_area sz x y :
  in_bounds sz x y = true -> (offset_of sz x y < area sz)%nat.
Proof.
  unfold in_bounds, offset_of, area. destruct sz as [w h]. cbn [fst snd].
  rewrite !andb_true_iff. intros [[[H1 H2] H3] H4].
  apply Z.leb_le in H1, H3. apply Z.ltb_lt in H2, H4.
  apply Z2Nat.inj_lt; nia.
Qed.

Lemma getpixel_rounded im radius x y p :
  wf_image im -> getpixel im x y = Some p ->
  exists m, getmask (corner_mask K (size im) radius) x y = Some m
            /\ getpixel (rounded K im radius) x y = Some (set_alpha p m).
Proof.
  intros (_ & _ & Hlen) Hp. unfold getpixel, getmask in *. cbn [size msize].
  destruct (in_bounds (size im) x y) eqn:Hb; [| discriminate].
  pose proof (offset_in_area _ _ _ Hb) as Hoff.
  destruct (lookup_lt_is_Some_2 (mdata (corner_mask K (size im) radius))
              (offset_of (size im) x y)) as [m Hm].
  { now rewrite corner_mask_length. }
  exists m. split.
  { change (msize (corner_mask K (size im) radius)) with (size im).
    now rewrite Hb. }
  unfold rounded. cbn [data size]. rewrite Hb.
  rewrite lookup_zip_with, Hp. cbn [mbind option_bind]. now rewrite Hm.
Qed.

(** C3, as amended.  For a positive radius [round_image] returns a fresh
    raster of the size of its input in which every pixel keeps its colour
    bands and takes the value of the drawn mask as its alpha, whatever its
    alpha was: the alpha band is replaced by the mask, not multiplied by it.
    The input raster is left as it was. *)
Theorem round_image_replaces_alpha (W : World) (r : iref) (im : Image)
    (radius : Z) :
  images W !! r = Some im -> wf_image im -> 0 < radius ->
  exists out W',
    round_image K r radius W = (Ok out, W')
    /\ images W' !! r = Some im
    /\ images W' !! out = Some (rounded K im radius)
    /\ size (rounded K im radius) = size im
    /\ forall x y p, getpixel im x y = Some p ->
         exists m, getmask (corner_mask K (size im) radius) x y = Some m
                   /\ getpixel (rounded K im radius) x y = Some (fst p, m).
Proof.
  intros Hr Hwf Hrad. pose proof Hwf as (Hw & Hh & Hlen).
  eexists _, _. split; [apply round_image_run; eassumption |].
  cbn [images]. split; [now apply lookup_kept |].
  split; [apply lookup_fresh |]. split; [reflexivity |].
  intros x y p Hp. exact (getpixel_rounded im radius x y p Hwf Hp).
Qed.

(** ** [add_background] *)

Lemma keeps_refl W : keeps W (images W).
Proof. now intros i x H. Qed.

Lemma keeps_app W l x : keeps W l -> keeps W (l ++ [x]).
Proof. intros H i y Hy. apply lookup_kept. now apply H. Qed.

Lemma holds_keeps W W' o v :
  holds W o v -> keeps W (images W') -> holds W' o v.
Proof. destruct o, v; cbn; auto. Qed.

Lemma Image_filter_run W r im radius :
  images W !! r = Some im ->
  Image_filter_GaussianBlur K r radius W
  = (Ok (length (images W)),
     mkWorld (images W ++ [mkImage (size im) (gaussian_blur K (size im) (data im) radius)])
             (masks W)).
Proof.
  intros H. unfold Image_filter_GaussianBlur.
  now rewrite (bind_Ok _ _ _ _ _ (get_image_run _ _ _ H)).
Qed.

Lemma Image_copy_run W r im :
  images W !! r = Some im ->
  Image_copy r W = (Ok (length (images W)), mkWorld (images W ++ [im]) (masks W)).
Proof.
  intros H. unfold Image_copy.
  now rewrite (bind_Ok _ _ _ _ _ (get_image_run _ _ _ H)).
Qed.

Lemma Image_paste_run W dst src d s0 xy :
  images W !! dst = Some d -> images W !! src = Some s0 ->
  Image_paste K dst src xy W
  = (Ok tt,
     mkWorld (<[dst := mkImage (size d)
                         (paste_data (paste_px K) d s0 None (fst xy) (snd xy))]>
                (images W)) (masks W)).
Proof.
  intros Hd Hs. unfold Image_paste.
  rewrite (bind_Ok _ _ _ _ _ (get_image_run _ _ _ Hd)).
  now rewrite (bind_Ok _ _ _ _ _ (get_image_run _ _ _ Hs)).
Qed.

Lemma Image_paste_mask_run W dst src d s0 xy :
  images W !! dst = Some d -> images W !! src = Some s0 ->
  Image_paste_mask K dst src xy src W
  = (Ok tt,
     mkWorld (<[dst := mkImage (size d)
                         (paste_data (paste_px K) d s0 (Some s0) (fst xy) (snd xy))]>
                (images W)) (masks W)).
Proof.
  intros Hd Hs. unfold Image_paste_mask.
  rewrite (bind_Ok _ _ _ _ _ (get_image_run _ _ _ Hd)).
  rewrite (bind_Ok _ _ _ _ _ (get_image_run _ _ _ Hs)).
  rewrite (bind_Ok _ _ _ _ _ (get_image_run _ _ _ Hs)).
  now rewrite size_eqb_refl.
Qed.

Lemma Image_alpha_composite_run W a b ia ib :
  images W !! a = Some ia -> images W !! b = Some ib -> size ia = size ib ->
  Image_alpha_composite K a b W
  = (Ok (length (images W)),
     mkWorld (images W ++ [mkImage (size ia)
                             (zip_with (composite_px K) (data ia) (data ib))])
             (masks W)).
Proof.
  intros Ha Hb Hs. unfold Image_alpha_composite.
  rewrite (bind_Ok _ _ _ _ _ (get_image_run _ _ _ Ha)).
  rewrite (bind_Ok _ _ _ _ _ (get_image_run _ _ _ Hb)).
  now rewrite Hs, size_eqb_refl.
Qed.

Lemma Image_alpha_composite_mismatch W a b ia ib :
  images W !! a = Some ia -> images W !! b = Some ib -> size ia <> size ib ->
  Image_alpha_composite K a b W = (Raise ValueError, W).
Proof.
  intros Ha Hb Hs. unfold Image_alpha_composite.
  rewrite (bind_Ok _ _ _ _ _ (get_image_run _ _ _ Ha)).
  rewrite (bind_Ok _ _ _ _ _ (get_image_run _ _ _ Hb)).
  destruct (size_eqb (size ia) (size ib)) eqn:E; [| reflexivity].
  now apply size_eqb_eq in E.
Qed.

(** The background block allocates its result last, or raises and leaves
    the store alone. *)
Lemma create_background_spec W fg im bg_mode color bg bgv padding :
  images W !! fg = Some im -> holds W bg bgv ->
  match backdrop K im bg_mode color bgv padding with
  | Ok back =>
      exists l, create_background K fg bg_mode color bg padding W
                = (Ok (length l), mkWorld (l ++ [back]) (masks W))
                /\ keeps W l
  | Raise e =>
      create_background K fg bg_mode color bg padding W = (Raise e, W)
  end.
Proof.
  intros Hfg Hbg. unfold create_background, backdrop, canvas_size.
  rewrite (bind_Ok _ _ _ _ _ (get_image_run _ _ _ Hfg)).
  unfold width, height. destruct (size im) as [w h]. cbn [fst snd].
  destruct (bg_mode =? "image")%string, bg as [b |], bgv as [bim |];
    cbn in Hbg; try contradiction.
  - unfold Image_resize, Image_convert_RGBA. rewrite bind_bind.
    rewrite (bind_Ok _ _ _ _ _ (get_image_run _ _ _ Hbg)).
    destruct (size_eqb (size bim) (w + 2 * padding, h + 2 * padding)).
    + exists (images W ++ [bim]). split; [| apply keeps_app, keeps_refl].
      unfold bind at 1. cbn [alloc_image].
      erewrite Image_copy_run by (cbn [images]; apply lookup_fresh).
      reflexivity.
    + cbn [fst snd].
      destruct ((w + 2 * padding <? 1) || (h + 2 * padding <? 1)).
      * reflexivity.
      * eexists (images W ++ [_]). split; [| apply keeps_app, keeps_refl].
        unfold bind at 1. cbn [alloc_image].
        erewrite Image_copy_run by (cbn [images]; apply lookup_fresh).
        reflexivity.
  - unfold Image_new. cbn [fst snd].
    destruct ((w + 2 * padding <? 0) || (h + 2 * padding <? 0)); [reflexivity |].
    exists (images W). split; [reflexivity | apply keeps_refl].
  - unfold Image_new. cbn [fst snd].
    destruct ((w + 2 * padding <? 0) || (h + 2 * padding <? 0)); [reflexivity |].
    exists (images W). split; [reflexivity | apply keeps_refl].
  - unfold Image_new. cbn [fst snd].
    destruct ((w + 2 * padding <? 0) || (h + 2 * padding <? 0)); [reflexivity |].
    exists (images W). split; [reflexivity | apply keeps_refl].
Qed.

Lemma backdrop_size im bg_mode color bgv padding back :
  backdrop K im bg_mode color bgv padding = Ok back ->
  size back = canvas_size im padding.
Proof.
  unfold backdrop. set (sz := canvas_size im padding).
  destruct (bg_mode =? "image")%string, bgv as [b |].
  - destruct (size_eqb (size b) sz) eqn:E.
    + intros [= <-]. now apply size_eqb_eq.
    + destruct ((fst sz <? 1) || (snd sz <? 1)); [discriminate |].
      now intros [= <-].
  - destruct ((fst sz <? 0) || (snd sz <? 0)); [discriminate |]. now intros [= <-].
  - destruct ((fst sz <? 0) || (snd sz <? 0)); [discriminate |]. now intros [= <-].
  - destruct ((fst sz <? 0) || (snd sz <? 0)); [discriminate |]. now intros [= <-].
Qed.

Lemma backdrop_raises im bg_mode color bgv padding e :
  backdrop K im bg_mode color bgv padding = Raise e -> e = ValueError.
Proof.
  unfold backdrop. set (sz := canvas_size im padding).
  destruct (bg_mode =? "image")%string, bgv as [b |];
    repeat match goal with |- context [if ?c then _ else _] => destruct c end;
    congruence.
Qed.

(** With the shadow off, [add_background] hands back [composed]: the
    background layer with the foreground pasted on it, allocated last. *)
Lemma add_background_flat_spec depth W fg im bg_mode color bg bgv padding
    shadow_opacity shadow_offset :
  images W !! fg = Some im -> holds W bg bgv ->
  match composed K im bg_mode color bgv padding with
  | Ok out =>
      exists l, add_background K (S depth) fg bg_mode color bg padding false
                  shadow_opacity shadow_offset W
                = (Ok (length l), mkWorld (l ++ [out]) (masks W))
                /\ keeps W l
  | Raise e =>
      add_background K (S depth) fg bg_mode color bg padding false
        shadow_opacity shadow_offset W = (Raise e, W)
  end.
Proof.
  intros Hfg Hbg. cbn [add_background]. rewrite bind_ret.
  pose proof (create_background_spec W fg im bg_mode color bg bgv padding Hfg Hbg)
    as Hback.
  unfold composed. destruct (backdrop K im bg_mode color bgv padding) as [back | e].
  - destruct Hback as (l & Hrun & Hkeep). exists l. split; [| exact Hkeep].
    rewrite (bind_Ok _ _ _ _ _ Hrun), bind_ret.
    erewrite bind_Ok.
    2:{ apply Image_paste_mask_run with (d := back) (s0 := im); cbn [images].
        - apply lookup_fresh.
        - apply lookup_kept, Hkeep, Hfg. }
    cbn [ret images masks fst snd]. now rewrite insert_fresh.
  - now rewrite (bind_Raise _ _ _ _ _ Hback).
Qed.

(** The shadow block: the layer, its blur and the canvas are allocated in
    this order; a canvas of negative size is refused. *)
Lemma create_shadow_spec W fg im padding shadow_opacity shadow_offset :
  images W !! fg = Some im -> 0 <= width im -> 0 <= height im ->
  let sz := (width im + 2 * padding + fst shadow_offset,
             height im + 2 * padding + snd shadow_offset) in
  let layer := shadow_layer im shadow_opacity in
  let l := (images W ++ [layer])
           ++ [mkImage (size im) (gaussian_blur K (size im) (data layer) 10)] in
  if (fst sz <? 0) || (snd sz <? 0)
  then create_shadow K fg padding shadow_opacity shadow_offset W
       = (Raise ValueError, mkWorld l (masks W))
  else exists canvas,
         size canvas = sz
         /\ create_shadow K fg padding shadow_opacity shadow_offset W
            = (Ok (length l), mkWorld (l ++ [canvas]) (masks W)).
Proof.
  intros Hfg Hw Hh sz layer l.
  assert (Hrun : create_shadow K fg padding shadow_opacity shadow_offset W
                 = bind (Image_new sz (0, 0, 0, 0))
                     (fun c => bind (Image_paste K c (length (images W ++ [layer]))
                                       (padding + fst shadow_offset,
                                        padding + snd shadow_offset))
                                 (fun _ => ret c))
                     (mkWorld l (masks W))).
  { unfold create_shadow.
    rewrite (bind_Ok _ _ _ _ _ (get_image_run _ _ _ Hfg)).
    rewrite (bind_Ok _ _ _ _ _ (Image_new_run _ _ _ Hw Hh)).
    erewrite bind_Ok.
    2:{ apply Image_filter_run. cbn [images]. apply lookup_fresh. }
    reflexivity. }
  rewrite Hrun. unfold Image_new at 1 2.
  destruct ((fst sz <? 0) || (snd sz <? 0)); [reflexivity |].
  unfold bind at 1. cbn [alloc_image images masks].
  eexists. split; [shelve |].
  erewrite bind_Ok.
  2:{ eapply Image_paste_run; cbn [images].
      - apply lookup_fresh.
      - apply lookup_kept. unfold l. apply lookup_fresh. }
  cbn [ret images masks]. rewrite insert_fresh. reflexivity.
  Unshelve. reflexivity.
Qed.

(** A call with the shadow on and a shadow offset other than [(0, 0)] stops
    at the inner [Image.alpha_composite], whose two arguments differ in size
    (or earlier, at an [Image.new] or a [resize] that refuses its size). *)
Lemma add_background_offset_raises depth W fg im bg_mode color bg bgv padding
    shadow_opacity shadow_offset :
  images W !! fg = Some im -> 0 <= width im -> 0 <= height im ->
  holds W bg bgv -> shadow_offset <> (0, 0) ->
  fst (add_background K (S depth) fg bg_mode color bg padding true
         shadow_opacity shadow_offset W) = Raise ValueError.
Proof.
  intros Hfg Hw Hh Hbg Hoff. cbn [add_background]. rewrite bind_bind.
  pose proof (create_shadow_spec W fg im padding shadow_opacity shadow_offset
                Hfg Hw Hh) as Hsh.
  cbv zeta in Hsh.
  set (l := (images W ++ [shadow_layer im shadow_opacity]) ++ [_]) in Hsh.
  destruct (_ || _) in Hsh.
  { apply bind_Raise_fst. now rewrite Hsh. }
  destruct Hsh as (canvas & Hsize & Hrun).
  rewrite (bind_Ok _ _ _ _ _ Hrun), bind_ret.
  set (W1 := mkWorld (l ++ [canvas]) (masks W)).
  assert (Hfg1 : images W1 !! fg = Some im).
  { cbn [W1 images]. unfold l. now do 3 apply lookup_kept. }
  assert (Hbg1 : holds W1 bg bgv).
  { apply (holds_keeps W); [exact Hbg |]. cbn [W1 images]. unfold l.
    do 3 apply keeps_app. apply keeps_refl. }
  pose proof (create_background_spec W1 fg im bg_mode color bg bgv padding
                Hfg1 Hbg1) as Hback.
  destruct (backdrop K im bg_mode color bgv padding) as [back | e] eqn:Eback.
  2:{ rewrite (bind_Raise _ _ _ _ _ Hback). cbn [fst].
      now rewrite (backdrop_raises _ _ _ _ _ _ Eback). }
  destruct Hback as (l1 & Hrun1 & Hkeep1).
  rewrite (bind_Ok _ _ _ _ _ Hrun1).
  apply bind_Raise_fst. apply bind_Raise_fst.
  erewrite Image_alpha_composite_mismatch with (ia := back) (ib := canvas).
  - reflexivity.
  - cbn [images]. apply lookup_fresh.
  - cbn [images]. apply lookup_kept, Hkeep1. cbn [W1 images]. apply lookup_fresh.
  - rewrite (backdrop_size _ _ _ _ _ _ Eback), Hsize. unfold canvas_size.
    destruct shadow_offset as [dx dy]. cbn [fst snd]. intros [= H1 H2].
    apply Hoff. f_equal; lia.
Qed.

(** With the shadow on, [add_background] raises [ValueError] whatever the
    other arguments are, as soon as two calls may be nested.  With a shadow
    offset of [(0, 0)] the inner composite succeeds and the nested call,
    made with the default offset [(8, 8)], is the one that raises. *)
Lemma add_background_shadow_raises depth W fg im bg_mode color bg bgv padding
    shadow_opacity shadow_offset :
  images W !! fg = Some im -> 0 <= width im -> 0 <= height im ->
  holds W bg bgv ->
  fst (add_background K (S (S depth)) fg bg_mode color bg padding true
         shadow_opacity shadow_offset W) = Raise ValueError.
Proof.
  intros Hfg Hw Hh Hbg.
  destruct (decide (shadow_offset = (0, 0))) as [-> | Hoff].
  2:{ now apply add_background_offset_raises with (im := im) (bgv := bgv). }
  remember (S depth) as depth1 eqn:Hdepth.
  cbn [add_background]. rewrite bind_bind.
  pose proof (create_shadow_spec W fg im padding shadow_opacity (0, 0)
                Hfg Hw Hh) as Hsh.
  cbv zeta in Hsh.
  set (l := (images W ++ [shadow_layer im shadow_opacity]) ++ [_]) in Hsh.
  destruct (_ || _) in Hsh.
  { apply bind_Raise_fst. now rewrite Hsh. }
  destruct Hsh as (canvas & Hsize & Hrun).
  rewrite (bind_Ok _ _ _ _ _ Hrun), bind_ret.
  set (W1 := mkWorld (l ++ [canvas]) (masks W)).
  assert (Hfg1 : images W1 !! fg = Some im).
  { cbn [W1 images]. unfold l. now do 3 apply lookup_kept. }
  assert (Hbg1 : holds W1 bg bgv).
  { apply (holds_keeps W); [exact Hbg |]. cbn [W1 images]. unfold l.
    do 3 apply keeps_app. apply keeps_refl. }
  pose proof (create_background_spec W1 fg im bg_mode color bg bgv padding
                Hfg1 Hbg1) as Hback.
  destruct (backdrop K im bg_mode color bgv padding) as [back | e] eqn:Eback.
  2:{ rewrite (bind_Raise _ _ _ _ _ Hback). cbn [fst].
      now rewrite (backdrop_raises _ _ _ _ _ _ Eback). }
  destruct Hback as (l1 & Hrun1 & Hkeep1).
  rewrite (bind_Ok _ _ _ _ _ Hrun1).
  apply bind_Raise_fst.
  erewrite bind_Ok.
  2:{ apply Image_alpha_composite_run with (ia := back) (ib := canvas).
      - cbn [images]. apply lookup_fresh.
      - cbn [images]. apply lookup_kept, Hkeep1. cbn [W1 images].
        apply lookup_fresh.
      - rewrite (backdrop_size _ _ _ _ _ _ Eback), Hsize. unfold canvas_size.
        cbn [fst snd]. f_equal; lia. }
  apply bind_Raise_fst. subst depth1.
  apply add_background_offset_raises with (im := im) (bgv := None).
  - cbn [images]. do 2 apply lookup_kept. now apply Hkeep1.
  - exact Hw.
  - exact Hh.
  - exact I.
  - discriminate.
Qed.

Lemma backdrop_total im bg_mode color bgv padding :
  0 <= width im -> 0 <= height im -> 0 <= padding ->
  bg_mode <> "image"%string \/ bgv = None \/ (0 < width im /\ 0 < height im) ->
  exists back, backdrop K im bg_mode color bgv padding = Ok back.
Proof.
  intros Hw Hh Hp Hbg. unfold backdrop, canvas_size. cbn [fst snd].
  assert (H0 : (width im + 2 * padding <? 0) || (height im + 2 * padding <? 0)
               = false).
  { apply orb_false_iff. split; apply Z.ltb_ge; lia. }
  destruct (String.eqb_spec bg_mode "image"), bgv as [b |]; rewrite ?H0; eauto.
  destruct Hbg as [| [| [Hw1 Hh1]]]; [contradiction | discriminate |].
  destruct (size_eqb _ _); eauto.
  assert (H1 : (width im + 2 * padding <? 1) || (height im + 2 * padding <? 1)
               = false).
  { apply orb_false_iff. split; apply Z.ltb_ge; lia. }
  rewrite H1. eauto.
Qed.

Lemma add_background_flat_run depth W fg im bg_mode color bg bgv padding
    shadow_opacity shadow_offset :
  images W !! fg = Some im -> holds W bg bgv ->
  0 <= width im -> 0 <= height im -> 0 <= padding ->
  bg_mode <> "image"%string \/ bgv = None \/ (0 < width im /\ 0 < height im) ->
  exists back l,
    backdrop K im bg_mode color bgv padding = Ok back
    /\ add_background K (S depth) fg bg_mode color bg padding false
         shadow_opacity shadow_offset W
       = (Ok (length l), mkWorld (l ++ [framed K back im padding]) (masks W))
    /\ keeps W l.
Proof.
  intros Hfg Hbg Hw Hh Hp Hnz.
  destruct (backdrop_total im bg_mode color bgv padding Hw Hh Hp Hnz)
    as [back Hback].
  pose proof (add_background_flat_spec depth W fg im bg_mode color bg bgv
                padding shadow_opacity shadow_offset Hfg Hbg) as Hrun.
  unfold composed in Hrun. rewrite Hback in Hrun.
  destruct Hrun as (l & Hrun & Hkeep). eauto.
Qed.

(** C1.  What [add_background] returns, by the shadow switch.  With the
    shadow off the output is a fresh raster of size
    [(fgW + 2p, fgH + 2p)].  With the shadow on there is no output at all:
    the background canvas is built [(fgW + 2p, fgH + 2p)] and the shadow
    canvas [(fgW + 2p + dx, fgH + 2p + dy)], and [Image.alpha_composite]
    refuses the pair with [ValueError]; for [(dx, dy) = (0, 0)] the nested
    call, made with the default offset [(8, 8)], raises the same way. *)
Theorem add_background_output_size (depth : nat) (W : World) (fg : iref)
    (im : Image) (bg_mode : string) (color : rgba) (bg : option iref)
    (bgv : option Image) (padding shadow_opacity : Z) (shadow_offset : Z * Z) :
  images W !! fg = Some im -> holds W bg bgv ->
  0 < width im -> 0 < height im -> 0 <= padding ->
  (exists r W' out,
      add_background K (S depth) fg bg_mode color bg padding false
        shadow_opacity shadow_offset W = (Ok r, W')
      /\ images W' !! r = Some out
      /\ size out = (width im + 2 * padding, height im + 2 * padding))
  /\ fst (add_background K (S (S depth)) fg bg_mode color bg padding true
            shadow_opacity shadow_offset W) = Raise ValueError.
Proof.
  intros Hfg Hbg Hw Hh Hp. split.
  - destruct (add_background_flat_run depth W fg im bg_mode color bg bgv padding
                shadow_opacity shadow_offset) as (back & l & Hback & Hrun & _);
      auto; try lia.
    eexists _, _, _. split; [exact Hrun |]. cbn [images].
    split; [apply lookup_fresh |]. cbn [framed size].
    apply (backdrop_size _ _ _ _ _ _ Hback).
  - apply add_background_shadow_raises with (im := im) (bgv := bgv); auto; lia.
Qed.


Lemma getpixel_solid sz color x y :
  in_bounds sz x y = true -> getpixel (solid sz color) x y = Some (ink color).
Proof.
  intros Hb. unfold getpixel, solid. cbn [size data]. rewrite Hb.
  apply lookup_replicate_2. now apply offset_in_area.
Qed.

(** C6, as amended.  The shadow layer is the first object the shadow block
    allocates: a raster of the size of the foreground in which every pixel is
    black with the opacity value itself as alpha (clipped to one byte, not
    rescaled from 0..100), whatever the alpha of the foreground there.  The
    layer is not masked by the foreground, which the block reads for its size
    only. *)
Theorem shadow_layer_uniform (W : World) (fg : iref) (im : Image)
    (padding shadow_opacity : Z) (shadow_offset : Z * Z) :
  images W !! fg = Some im -> 0 <= width im -> 0 <= height im ->
  images (snd (create_shadow K fg padding shadow_opacity shadow_offset W))
    !! length (images W) = Some (shadow_layer im shadow_opacity)
  /\ size (shadow_layer im shadow_opacity) = size im
  /\ (forall x y, in_bounds (size im) x y = true ->
        getpixel (shadow_layer im shadow_opacity) x y
        = Some (0, 0, 0, clip8 shadow_opacity))
  /\ (0 <= shadow_opacity <= 100 -> clip8 shadow_opacity = shadow_opacity).
Proof.
  intros Hfg Hw Hh.
  pose proof (create_shadow_spec W fg im padding shadow_opacity shadow_offset
                Hfg Hw Hh) as Hsh.
  cbv zeta in Hsh. split; [| split; [reflexivity | split]].
  - destruct (_ || _) in Hsh.
    + rewrite Hsh. cbn [snd images]. apply lookup_kept, lookup_fresh.
    + destruct Hsh as (canvas & _ & ->). cbn [snd images].
      do 2 apply lookup_kept. apply lookup_fresh.
  - intros x y Hb. unfold shadow_layer. now rewrite getpixel_solid.
  - unfold clip8. lia.
Qed.

(** C7.  In image mode without an image [add_background] does what it does
    in colour mode, on every input: the background is the solid colour.  With
    the shadow off the call returns that background with the foreground
    pasted on it; with the shadow on it raises [ValueError], as it does in
    every mode. *)
Theorem add_background_image_mode_without_image (depth : nat) (W : World)
    (fg : iref) (im : Image) (color : rgba) (padding shadow_opacity : Z)
    (shadow_enabled : bool) (shadow_offset : Z * Z) :
  images W !! fg = Some im ->
  0 <= width im -> 0 <= height im -> 0 <= padding ->
  add_background K (S (S depth)) fg "image" color None padding shadow_enabled
    shadow_opacity shadow_offset W
  = add_background K (S (S depth)) fg "color" color None padding shadow_enabled
      shadow_opacity shadow_offset W
  /\ result_of (add_background K (S (S depth)) fg "image" color None padding
                  shadow_enabled shadow_opacity shadow_offset W)
     = if shadow_enabled then Raise ValueError
       else Ok (framed K (solid (canvas_size im padding) color) im padding).
Proof.
  intros Hfg Hw Hh Hp. split; [reflexivity |].
  destruct shadow_enabled.
  - pose proof (add_background_shadow_raises depth W fg im "image" color None
                  None padding shadow_opacity shadow_offset Hfg Hw Hh I) as H.
    destruct (add_background _ _ _ _ _ _ _ _ _ _ _) as [[r | e] W'];
      cbn in H; [discriminate | now inversion H].
  - destruct (add_background_flat_run (S depth) W fg im "image" color None None
                padding shadow_opacity shadow_offset Hfg I Hw Hh Hp
                (or_intror (or_introl eq_refl)))
      as (back & l & Hback & Hrun & _).
    rewrite Hrun. cbn [result_of images]. rewrite lookup_fresh.
    unfold backdrop, canvas_size in Hback. cbn [fst snd String.eqb] in Hback.
    unfold canvas_size.
    destruct (_ || _) in Hback; [discriminate |]. now inversion Hback.
Qed.

(** ** The two stages in sequence *)

Lemma round_image_spec W r im radius :
  images W !! r = Some im -> 0 <= width im -> 0 <= height im ->
  exists r' W',
    round_image K r radius W = (Ok r', W')
    /\ images W' !! r' = Some (if radius <=? 0 then im else rounded K im radius)
    /\ keeps W (images W').
Proof.
  intros Hr Hw Hh. destruct (Z.leb_spec radius 0) as [H | H].
  - exists r, W. rewrite round_image_nonpositive by assumption.
    auto using keeps_refl.
  - eexists _, _. split; [now apply round_image_run with (im := im) |].
    cbn [images]. split; [apply lookup_fresh | apply keeps_app, keeps_refl].
Qed.

Lemma result_of_Raise (x : outcome iref * World) e :
  fst x = Raise e -> result_of x = Raise e.
Proof. destruct x as [[r | e'] W]; cbn; congruence. Qed.

(** The raster (or the error) that [round_image] followed by
    [add_background] ends with is a function of the input raster, the
    background image and the parameters. *)
Lemma stages_value depth W fg im radius bg_mode color bg bgv padding
    shadow_enabled shadow_opacity shadow_offset :
  images W !! fg = Some im -> holds W bg bgv ->
  0 <= width im -> 0 <= height im ->
  result_of ((sc_rounded <- round_image K fg radius ;;
              add_background K (S (S depth)) sc_rounded bg_mode color bg
                padding shadow_enabled shadow_opacity shadow_offset) W)
  = if shadow_enabled then Raise ValueError
    else composed K (if radius <=? 0 then im else rounded K im radius)
           bg_mode color bgv padding.
Proof.
  intros Hfg Hbg Hw Hh.
  destruct (round_image_spec W fg im radius Hfg Hw Hh)
    as (sc & W1 & Hrun & Hsc & Hkeep).
  rewrite (bind_Ok _ _ _ _ _ Hrun).
  set (im1 := if radius <=? 0 then im else rounded K im radius) in *.
  assert (Hsize : size im1 = size im) by (unfold im1; now destruct (radius <=? 0)).
  assert (Hbg1 : holds W1 bg bgv) by now apply (holds_keeps W).
  destruct shadow_enabled.
  - apply result_of_Raise.
    apply add_background_shadow_raises with (im := im1) (bgv := bgv); auto;
      unfold width, height; rewrite Hsize; assumption.
  - pose proof (add_background_flat_spec (S depth) W1 sc im1 bg_mode color bg
                  bgv padding shadow_opacity shadow_offset Hsc Hbg1) as Hflat.
    destruct (composed K im1 bg_mode color bgv padding) as [out | e].
    + destruct Hflat as (l & -> & _). cbn [result_of images].
      now rewrite lookup_fresh.
    + now rewrite Hflat.
Qed.

End Properties.

(** ** The editor *)

Section EditorProperties.

Variable round_image_stage : iref -> Z -> M World iref.
Variable add_background_stage :
  iref -> string -> rgba -> option iref -> Z -> bool -> Z -> M World iref.

Abbreviation apply_effects' :=
  (apply_effects round_image_stage add_background_stage).
Abbreviation take_screenshot' :=
  (take_screenshot round_image_stage add_background_stage).

(** C10.  Without a capture [apply_effects] returns at once: whatever the
    two stages would do, neither is called, and the editor (its
    [final_image] included) and the store are left as they were. *)
Theorem apply_effects_without_capture (s : App) :
  original_image (self s) = None ->
  apply_effects' s = (Ok tt, s).
Proof.
  intros H. unfold apply_effects, bind, get_self. now rewrite H.
Qed.

Abbreviation reachable' := (reachable round_image_stage add_background_stage).

Lemma set_final_image_same e : set_final_image (final_image e) e = e.
Proof. now destruct e. Qed.

(** [apply_effects] writes [final_image] and nothing else of the editor,
    also when a stage raises. *)
Lemma apply_effects_self s :
  exists f, self (snd (apply_effects' s)) = set_final_image f (self s).
Proof.
  unfold apply_effects, bind, get_self, in_store, set_self, ret.
  destruct (original_image (self s)) as [original |].
  2:{ exists (final_image (self s)). cbn. now rewrite set_final_image_same. }
  cbn [self store].
  destruct (round_image_stage _ _ _) as [[sc | e] W1]; cbn [self store].
  2:{ exists (final_image (self s)). cbn. now rewrite set_final_image_same. }
  destruct (add_background_stage _ _ _ _ _ _ _ _) as [[bg | e] W2];
    cbn [self store].
  2:{ exists (final_image (self s)). cbn. now rewrite set_final_image_same. }
  destruct (round_image_stage _ _ _) as [[final | e] W3]; cbn [self store].
  2:{ exists (final_image (self s)). cbn. now rewrite set_final_image_same. }
  now exists (Some final).
Qed.

Lemma apply_effects_history s :
  let e' := self (snd (apply_effects' s)) in
  config e' = config (self s)
  /\ original_image e' = original_image (self s)
  /\ undo_stack e' = undo_stack (self s)
  /\ redo_stack e' = redo_stack (self s).
Proof.
  destruct (apply_effects_self s) as [f Hf]. cbv zeta. now rewrite Hf.
Qed.

(** A capture, up to the final call of [apply_effects]: the history is
    updated if there was a capture, the new raster is opened and converted
    (two allocations), and the converted one becomes the capture. *)
Lemma take_screenshot_run s captured :
  take_screenshot' captured s
  = apply_effects'
      (mkApp
         (set_original_image (Some (S (length (images (store s)))))
            (match original_image (self s) with
             | Some prior =>
                 set_redo_stack []
                   (set_undo_stack
                      (undo_stack (self s) ++ [(prior, config (self s))])
                      (self s))
             | None => self s
             end))
         (mkWorld (images (store s) ++ [captured; captured]) (masks (store s)))).
Proof.
  unfold take_screenshot, push_undo, Image_convert_RGBA, Image_copy.
  destruct s as [[c [prior |] f u r] W];
    cbv [bind get_self set_self in_store alloc_image get_image ret];
    cbn [self store images masks original_image undo_stack config];
    rewrite lookup_fresh;
    cbn [self store images masks original_image undo_stack config];
    rewrite <- app_assoc, length_app, Nat.add_1_r; reflexivity.
Qed.

(** What a capture does to the history, from any state. *)
Lemma take_screenshot_self s captured :
  let e := self s in
  let e' := self (snd (take_screenshot' captured s)) in
  original_image e' = Some (S (length (images (store s))))
  /\ config e' = config e
  /\ match original_image e with
     | Some prior =>
         undo_stack e' = undo_stack e ++ [(prior, config e)]
         /\ redo_stack e' = []
     | None =>
         undo_stack e' = undo_stack e /\ redo_stack e' = redo_stack e
     end.
Proof.
  cbv zeta. rewrite take_screenshot_run.
  match goal with |- context [apply_effects' ?s1] =>
    destruct (apply_effects_history s1) as (Hc & Ho & Hu & Hr) end.
  cbv zeta in *. rewrite Ho, Hc, Hu, Hr. cbn [self].
  now destruct (original_image (self s)).
Qed.

Lemma change_config_history s c :
  let e' := self (snd (change_config round_image_stage add_background_stage c s)) in
  original_image e' = original_image (self s)
  /\ undo_stack e' = undo_stack (self s)
  /\ redo_stack e' = redo_stack (self s).
Proof.
  cbv zeta. unfold change_config. cbv [bind set_self].
  match goal with |- context [apply_effects' ?s1] =>
    destruct (apply_effects_history s1) as (_ & Ho & Hu & Hr) end.
  cbv zeta in *. now rewrite Ho, Hu, Hr.
Qed.

Lemma undo_cases s :
  snd (undo round_image_stage add_background_stage s) = s
  \/ is_Some (original_image
                (self (snd (undo round_image_stage add_background_stage s)))).
Proof.
  unfold undo. cbv [bind get_self].
  destruct (last (undo_stack (self s))) as [[capture c] |]; [| now left].
  destruct (original_image (self s)) as [current |]; [| now left].
  right. cbv [set_self]. cbn [self store].
  match goal with |- context [apply_effects' ?s1] =>
    destruct (apply_effects_history s1) as (_ & Ho & _) end.
  cbv zeta in *. rewrite Ho. cbn. eauto.
Qed.

Lemma redo_cases s :
  snd (redo round_image_stage add_background_stage s) = s
  \/ is_Some (original_image
                (self (snd (redo round_image_stage add_background_stage s)))).
Proof.
  unfold redo. cbv [bind get_self].
  destruct (last (redo_stack (self s))) as [[capture c] |]; [| now left].
  destruct (original_image (self s)) as [current |]; [| now left].
  right. cbv [set_self]. cbn [self store].
  match goal with |- context [apply_effects' ?s1] =>
    destruct (apply_effects_history s1) as (_ & Ho & _) end.
  cbv zeta in *. rewrite Ho. cbn. eauto.
Qed.

(** Without a capture there is no history: both stacks are empty as long
    as [original_image] is [None]. *)
Lemma reachable_no_capture_no_history s :
  reachable' s ->
  original_image (self s) = None ->
  undo_stack (self s) = [] /\ redo_stack (self s) = [].
Proof.
  induction 1 as [W | s captured Hs IH | s Hs IH | s c Hs IH | s Hs IH | s Hs IH].
  - now cbn.
  - destruct (take_screenshot_self s captured) as (Ho & _). cbv zeta in Ho.
    rewrite Ho. discriminate.
  - destruct (apply_effects_history s) as (_ & Ho & Hu & Hr). cbv zeta in *.
    rewrite Ho, Hu, Hr. exact IH.
  - destruct (change_config_history s c) as (Ho & Hu & Hr). cbv zeta in *.
    rewrite Ho, Hu, Hr. exact IH.
  - destruct (undo_cases s) as [-> | [x Hx]]; [exact IH |].
    rewrite Hx. discriminate.
  - destruct (redo_cases s) as [-> | [x Hx]]; [exact IH |].
    rewrite Hx. discriminate.
Qed.

(** C8.  A capture taken in any state of a session leaves the redo stack
    empty.  When a capture was active, the snapshot pushed on top of the undo
    stack is the one of the state before the action: the capture that was
    active and the configuration in force, not the new capture, which
    becomes the active one.  Without a prior capture the undo stack is left
    alone.  This holds whether the render that ends the action succeeds or
    raises. *)
Theorem take_screenshot_history (s : App) (captured : Image) :
  reachable' s ->
  let e := self s in
  let e' := self (snd (take_screenshot' captured s)) in
  redo_stack e' = []
  /\ original_image e' = Some (S (length (images (store s))))
  /\ match original_image e with
     | Some prior => undo_stack e' = undo_stack e ++ [(prior, config e)]
     | None => undo_stack e' = undo_stack e
     end.
Proof.
  intros Hs. cbv zeta.
  destruct (take_screenshot_self s captured) as (Ho & _ & Hh). cbv zeta in *.
  pose proof (reachable_no_capture_no_history s Hs) as Hinv.
  destruct (original_image (self s)) as [prior |].
  - destruct Hh as [Hu Hr]. auto.
  - destruct Hh as [Hu Hr]. destruct (Hinv eq_refl) as [_ Hr0].
    rewrite Hr, Hr0. auto.
Qed.

End EditorProperties.

(** ** Runs on concrete inputs *)

Lemma sample_draw_keeps_length : draw_keeps_length Sample.kernels.
Proof.
  intros sz px xy radius fill. cbn. unfold Sample.draw_rounded_rectangle.
  apply length_imap.
Qed.

(** C3, counterexample.  A 3 x 3 raster whose pixels are all transparent,
    radius 1: the centre pixel, transparent in the input, is opaque in the
    output. *)
Lemma round_image_overwrites_transparency :
  getpixel Sample.clear3 1 1 = Some (10, 20, 30, 0)
  /\ pixel_of (result_of (round_image Sample.kernels 0%nat 1
                            (Sample.holding Sample.clear3))) 1 1
     = Some (10, 20, 30, 255).
Proof. split; vm_compute; reflexivity. Qed.

Lemma round_image_replaces_alpha_witness :
  exists out W',
    round_image Sample.kernels 0%nat 1 (Sample.holding Sample.clear3) = (Ok out, W')
    /\ images W' !! 0%nat = Some Sample.clear3
    /\ images W' !! out = Some (rounded Sample.kernels Sample.clear3 1)
    /\ size (rounded Sample.kernels Sample.clear3 1) = size Sample.clear3
    /\ forall x y p, getpixel Sample.clear3 x y = Some p ->
         exists m,
           getmask (corner_mask Sample.kernels (size Sample.clear3) 1) x y = Some m
           /\ getpixel (rounded Sample.kernels Sample.clear3 1) x y
              = Some (fst p, m).
Proof.
  apply (round_image_replaces_alpha Sample.kernels sample_draw_keeps_length
           (Sample.holding Sample.clear3) 0%nat Sample.clear3 1).
  - reflexivity.
  - unfold wf_image, width, height. cbn. repeat split; lia.
  - lia.
Defined.

Lemma add_background_output_size_witness :
  (exists r W' out,
      add_background Sample.kernels 1 0%nat "color" Sample.white None 20 false
        30 (8, 8) (Sample.holding Sample.dot) = (Ok r, W')
      /\ images W' !! r = Some out
      /\ size out = (width Sample.dot + 2 * 20, height Sample.dot + 2 * 20))
  /\ fst (add_background Sample.kernels 2 0%nat "color" Sample.white None 20
            true 30 (8, 8) (Sample.holding Sample.dot)) = Raise ValueError.
Proof.
  apply (add_background_output_size Sample.kernels 0 (Sample.holding Sample.dot)
           0%nat Sample.dot "color" Sample.white None None 20 30 (8, 8)).
  - reflexivity.
  - exact I.
  - unfold width. cbn. lia.
  - unfold height. cbn. lia.
  - lia.
Defined.

(** The editor as it starts ([shadow_enabled] is [True] in [_setup_state]):
    the first capture ends in [ValueError], raised by the render, after the
    capture has become the active one. *)
Example first_capture_raises :
  let r := take_screenshot Sample.round_image_stage Sample.add_background_stage
             Sample.dot Sample.fresh_editor in
  fst r = Raise ValueError
  /\ original_image (self (snd r)) = Some 1%nat
  /\ final_image (self (snd r)) = None.
Proof. vm_compute. repeat split. Qed.



(** C6, counterexample.  A 2 x 1 foreground, opaque on the left and
    transparent on the right, opacity 30: the shadow layer has alpha 30 on
    both pixels, where 30 rescaled to 0..255 would be 76 and the transparent
    pixel would cast no shadow. *)
Lemma shadow_layer_unscaled_unmasked :
  data Sample.half = [(9, 9, 9, 255); (9, 9, 9, 0)]
  /\ images (snd (create_shadow Sample.kernels 0%nat 20 30 (8, 8)
                    (Sample.holding Sample.half))) !! 1%nat
     = Some (mkImage (2, 1) [(0, 0, 0, 30); (0, 0, 0, 30)])
  /\ 30 * 255 / 100 = 76.
Proof. repeat split; vm_compute; reflexivity. Qed.

Lemma shadow_layer_uniform_witness :
  images (snd (create_shadow Sample.kernels 0%nat 20 30 (8, 8)
                 (Sample.holding Sample.half)))
    !! length (images (Sample.holding Sample.half))
  = Some (shadow_layer Sample.half 30)
  /\ size (shadow_layer Sample.half 30) = size Sample.half
  /\ (forall x y, in_bounds (size Sample.half) x y = true ->
        getpixel (shadow_layer Sample.half 30) x y = Some (0, 0, 0, clip8 30))
  /\ (0 <= 30 <= 100 -> clip8 30 = 30).
Proof.
  apply (shadow_layer_uniform Sample.kernels (Sample.holding Sample.half) 0%nat
           Sample.half 20 30 (8, 8)).
  - reflexivity.
  - unfold width. cbn. lia.
  - unfold height. cbn. lia.
Defined.

Lemma add_background_image_mode_without_image_witness :
  add_background Sample.kernels 2 0%nat "image" Sample.white None 20 true 30
    (8, 8) (Sample.holding Sample.dot)
  = add_background Sample.kernels 2 0%nat "color" Sample.white None 20 true 30
      (8, 8) (Sample.holding Sample.dot)
  /\ result_of (add_background Sample.kernels 2 0%nat "image" Sample.white None
                  20 true 30 (8, 8) (Sample.holding Sample.dot))
     = if true then Raise ValueError
       else Ok (framed Sample.kernels
                  (solid (canvas_size Sample.dot 20) Sample.white) Sample.dot 20).
Proof.
  apply (add_background_image_mode_without_image Sample.kernels 0
           (Sample.holding Sample.dot) 0%nat Sample.dot Sample.white 20 30 true
           (8, 8)).
  - reflexivity.
  - unfold width. cbn. lia.
  - unfold height. cbn. lia.
  - lia.
Defined.

Lemma apply_effects_without_capture_witness :
  apply_effects Sample.round_image_stage Sample.add_background_stage
    Sample.fresh_editor = (Ok tt, Sample.fresh_editor).
Proof.
  apply (apply_effects_without_capture Sample.round_image_stage
           Sample.add_background_stage Sample.fresh_editor).
  reflexivity.
Defined.

Lemma take_screenshot_history_witness :
  let s := snd (take_screenshot Sample.round_image_stage
                  Sample.add_background_stage Sample.dot Sample.fresh_editor) in
  let e := self s in
  let e' := self (snd (take_screenshot Sample.round_image_stage
                         Sample.add_background_stage Sample.half s)) in
  redo_stack e' = []
  /\ original_image e' = Some (S (length (images (store s))))
  /\ match original_image e with
     | Some prior => undo_stack e' = undo_stack e ++ [(prior, config e)]
     | None => undo_stack e' = undo_stack e
     end.
Proof.
  apply (take_screenshot_history Sample.round_image_stage
           Sample.add_background_stage
           (snd (take_screenshot Sample.round_image_stage
                   Sample.add_background_stage Sample.dot Sample.fresh_editor))
           Sample.half).
  apply reach_take_screenshot. apply reach_start.
Defined.

(** * Further properties of the stages *)

Section StageProperties.

Variable K : Kernels.

Lemma zip_with_set_alpha_twice (px : list rgba) (m : list Z) :
  zip_with set_alpha (zip_with set_alpha px m) m = zip_with set_alpha px m.
Proof.
  revert m. induction px as [| p px IH]; intros [| a m]; cbn; try reflexivity.
  now rewrite IH.
Qed.

Lemma rounded_twice im radius :
  rounded K (rounded K im radius) radius = rounded K im radius.
Proof.
  unfold rounded. cbn [size data]. now rewrite zip_with_set_alpha_twice.
Qed.

(** Rounding what [round_image] returned, with the same radius, changes
    nothing more: the second call returns a raster equal to the first
    result. *)
Theorem round_image_twice (W : World) (fg : iref) (im : Image) (radius : Z) :
  images W !! fg = Some im -> 0 <= width im -> 0 <= height im ->
  result_of ((once <- round_image K fg radius ;; round_image K once radius) W)
  = result_of (round_image K fg radius W).
Proof.
  intros Hfg Hw Hh. destruct (Z.leb_spec radius 0) as [Hr | Hr].
  - rewrite (bind_Ok _ _ _ _ _ (round_image_nonpositive K W fg radius Hr)).
    reflexivity.
  - rewrite (bind_Ok _ _ _ _ _ (round_image_run K W fg im radius Hfg Hw Hh Hr)).
    rewrite (round_image_run K W fg im radius Hfg Hw Hh Hr).
    erewrite round_image_run; [| cbn [images]; apply lookup_fresh | | | ];
      try assumption.
    cbn [result_of images]. now rewrite !lookup_fresh, rounded_twice.
Qed.

(** ** Pixels of a paste *)

Lemma offset_coordinates sz x y :
  in_bounds sz x y = true ->
  Z.of_nat (offset_of sz x y) mod fst sz = x
  /\ Z.of_nat (offset_of sz x y) / fst sz = y.
Proof.
  unfold in_bounds, offset_of. destruct sz as [w h]. cbn [fst snd].
  rewrite !andb_true_iff. intros [[[H1 H2] H3] H4].
  apply Z.leb_le in H1, H3. apply Z.ltb_lt in H2, H4.
  rewrite Z2Nat.id by nia. split.
  - rewrite Z.add_comm, Z.mod_add by lia. apply Z.mod_small. lia.
  - rewrite Z.add_comm, Z.div_add by lia. rewrite Z.div_small by lia. lia.
Qed.

Lemma getpixel_paste_data blend dst src mask x0 y0 x y d :
  getpixel dst x y = Some d ->
  getpixel (mkImage (size dst) (paste_data blend dst src mask x0 y0)) x y
  = Some (match getpixel src (x - x0) (y - y0) with
          | Some s =>
              match mask with
              | None => s
              | Some m =>
                  match getpixel m (x - x0) (y - y0) with
                  | Some a => blend d s (alpha_of a)
                  | None => d
                  end
              end
          | None => d
          end).
Proof.
  unfold getpixel at 1 2. cbn [size data].
  destruct (in_bounds (size dst) x y) eqn:Hb; [| discriminate].
  intros Hd. unfold paste_data. rewrite list_lookup_imap, Hd. cbn [fmap option_fmap option_map].
  unfold width. destruct (offset_coordinates _ _ _ Hb) as [-> ->]. reflexivity.
Qed.

Lemma wf_solid sz color :
  0 <= fst sz -> 0 <= snd sz -> wf_image (solid sz color).
Proof.
  intros Hw Hh. unfold wf_image, width, height, solid. cbn [size data].
  now rewrite length_replicate.
Qed.

Lemma wf_framed back fg padding :
  wf_image back -> wf_image (framed K back fg padding).
Proof.
  intros (Hw & Hh & Hlen). unfold wf_image, width, height, framed in *.
  cbn [size data]. unfold paste_data. now rewrite length_imap.
Qed.

Lemma wf_rounded im radius :
  draw_keeps_length K -> wf_image im -> wf_image (rounded K im radius).
Proof.
  intros Hdraw (Hw & Hh & Hlen). unfold wf_image, width, height, rounded in *.
  cbn [size data]. rewrite length_zip_with, (corner_mask_length K Hdraw), Hlen.
  repeat split; try assumption. lia.
Qed.

Lemma wf_round_value im radius :
  draw_keeps_length K -> wf_image im -> wf_image (round_value K im radius).
Proof.
  intros Hdraw Hwf. unfold round_value.
  destruct (radius <=? 0); [assumption | now apply wf_rounded].
Qed.

Lemma wf_backdrop im bg_mode color bgv padding back :
  lanczos_fills K ->
  match bgv with Some b => wf_image b | None => True end ->
  backdrop K im bg_mode color bgv padding = Ok back -> wf_image back.
Proof.
  intros Hl Hbg. unfold backdrop. set (sz := canvas_size im padding).
  assert (Hsolid : (if (fst sz <? 0) || (snd sz <? 0)
                    then Raise ValueError else Ok (solid sz color)) = Ok back ->
                   wf_image back).
  { destruct (Z.ltb_spec (fst sz) 0); [discriminate |].
    destruct (Z.ltb_spec (snd sz) 0); [discriminate |].
    intros [= <-]. now apply wf_solid. }
  destruct (bg_mode =? "image")%string, bgv as [b |]; try exact Hsolid.
  destruct (size_eqb (size b) sz); [now intros [= <-] |].
  destruct (Z.ltb_spec (fst sz) 1); [discriminate |].
  destruct (Z.ltb_spec (snd sz) 1); [discriminate |].
  intros [= <-]. unfold wf_image, width, height. cbn [size data].
  rewrite Hl. repeat split; lia.
Qed.

(** ** What [add_background] draws with the shadow off *)

Lemma backdrop_solid im bg_mode color bgv padding :
  bg_mode <> "image"%string \/ bgv = None ->
  0 <= width im + 2 * padding -> 0 <= height im + 2 * padding ->
  backdrop K im bg_mode color bgv padding
  = Ok (solid (canvas_size im padding) color).
Proof.
  intros Hmode Hw Hh. unfold backdrop, canvas_size. cbn [fst snd].
  assert (H0 : (width im + 2 * padding <? 0) || (height im + 2 * padding <? 0)
               = false).
  { apply orb_false_iff. split; apply Z.ltb_ge; lia. }
  destruct (String.eqb_spec bg_mode "image"), bgv as [b |]; rewrite ?H0;
    try reflexivity.
  destruct Hmode; [contradiction | discriminate].
Qed.

(** With the shadow off and the solid colour as background, the output is
    the canvas filled with the colour, with the foreground pasted through its
    own alpha at [(padding, padding)]: a pixel under the foreground is the
    blend of the colour and the foreground pixel, any other pixel is the
    colour. *)
Theorem add_background_pixels (depth : nat) (W : World) (fg : iref)
    (im : Image) (bg_mode : string) (color : rgba) (bg : option iref)
    (bgv : option Image) (padding shadow_opacity : Z) (shadow_offset : Z * Z) :
  images W !! fg = Some im -> holds W bg bgv ->
  0 <= width im -> 0 <= height im -> 0 <= padding ->
  bg_mode <> "image"%string \/ bgv = None ->
  exists out,
    result_of (add_background K (S depth) fg bg_mode color bg padding false
                 shadow_opacity shadow_offset W) = Ok out
    /\ size out = canvas_size im padding
    /\ forall x y, in_bounds (canvas_size im padding) x y = true ->
         getpixel out x y
         = Some (match getpixel im (x - padding) (y - padding) with
                 | Some s => paste_px K (ink color) s (alpha_of s)
                 | None => ink color
                 end).
Proof.
  intros Hfg Hbg Hw Hh Hp Hmode.
  assert (Hback : backdrop K im bg_mode color bgv padding
                  = Ok (solid (canvas_size im padding) color))
    by (apply backdrop_solid; [assumption | lia | lia]).
  pose proof (add_background_flat_spec K depth W fg im bg_mode color bg bgv
                padding shadow_opacity shadow_offset Hfg Hbg) as Hrun.
  unfold composed in Hrun. rewrite Hback in Hrun.
  destruct Hrun as (l & Hrun & _). rewrite Hrun. cbn [result_of images].
  rewrite lookup_fresh. eexists. split; [reflexivity |].
  split; [reflexivity |]. intros x y Hb. unfold framed.
  rewrite (getpixel_paste_data _ _ _ _ _ _ _ _ (ink color))
    by now apply getpixel_solid.
  now destruct (getpixel im (x - padding) (y - padding)).
Qed.

(** When [add_background] raises with the shadow off, for a canvas whose
    sides are within the sizes Pillow allocates (in absolute value: a
    negative padding gives a negative side): a canvas of negative size for
    the solid colour, an empty canvas for a background image that has not
    that size already.  The exception is [ValueError] and the store is left
    as it was; in every other case the call returns. *)
Theorem add_background_flat_refusal (depth : nat) (W : World) (fg : iref)
    (im : Image) (bg_mode : string) (color : rgba) (bg : option iref)
    (bgv : option Image) (padding shadow_opacity : Z) (shadow_offset : Z * Z) :
  images W !! fg = Some im -> holds W bg bgv ->
  within_limits (canvas_size im padding) ->
  let sz := canvas_size im padding in
  let refused :=
    match (bg_mode =? "image")%string, bgv with
    | true, Some b =>
        negb (size_eqb (size b) sz) && ((fst sz <? 1) || (snd sz <? 1))
    | _, _ => (fst sz <? 0) || (snd sz <? 0)
    end in
  if refused
  then add_background K (S depth) fg bg_mode color bg padding false
         shadow_opacity shadow_offset W = (Raise ValueError, W)
  else exists r W' out,
         add_background K (S depth) fg bg_mode color bg padding false
           shadow_opacity shadow_offset W = (Ok r, W')
         /\ images W' !! r = Some out /\ size out = sz.
Proof.
  intros Hfg Hbg _ sz refused.
  pose proof (add_background_flat_spec K depth W fg im bg_mode color bg bgv
                padding shadow_opacity shadow_offset Hfg Hbg) as Hrun.
  unfold composed in Hrun.
  destruct (backdrop K im bg_mode color bgv padding) as [back | e] eqn:Hback.
  - assert (Hno : refused = false).
    { subst refused. unfold backdrop in Hback. fold sz in Hback.
      destruct (bg_mode =? "image")%string, bgv as [b |];
        repeat match type of Hback with
               | context [if ?c then _ else _] => destruct c
               end; try discriminate; reflexivity. }
    rewrite Hno. destruct Hrun as (l & Hrun & _).
    eexists _, _, _. split; [exact Hrun |]. cbn [images].
    split; [apply lookup_fresh |]. cbn [framed size].
    apply (backdrop_size K _ _ _ _ _ _ Hback).
  - assert (Hyes : refused = true).
    { subst refused. unfold backdrop in Hback. fold sz in Hback.
      destruct (bg_mode =? "image")%string, bgv as [b |];
        repeat match type of Hback with
               | context [if ?c then _ else _] => destruct c
               end; try discriminate; reflexivity. }
    rewrite Hyes, Hrun. now rewrite (backdrop_raises K _ _ _ _ _ _ Hback).
Qed.

(** ** The stages and the objects of the store *)

Lemma round_image_keeps W r im radius :
  images W !! r = Some im ->
  keeps W (images (snd (round_image K r radius W))).
Proof.
  intros Hr. destruct (Z.leb_spec radius 0) as [H | H].
  { rewrite round_image_nonpositive by assumption. apply keeps_refl. }
  destruct (Z.ltb_spec (width im) 0) as [Hw | Hw];
    [| destruct (Z.ltb_spec (height im) 0) as [Hh | Hh]].
  3:{ rewrite (round_image_run K W r im radius) by assumption.
      apply keeps_app, keeps_refl. }
  all: unfold round_image; destruct (Z.leb_spec radius 0); [lia |];
    rewrite (bind_Ok _ _ _ _ _ (get_image_run _ _ _ Hr));
    unfold width, height in *; destruct (size im) as [w h]; cbn [fst snd] in *;
    unfold Image_new_L; cbn [fst snd].
  - destruct (Z.ltb_spec w 0); [| lia]. cbn [orb]. apply keeps_refl.
  - destruct (Z.ltb_spec w 0); [cbn [orb]; apply keeps_refl |].
    destruct (Z.ltb_spec h 0); [| lia]. cbn [orb]. apply keeps_refl.
Qed.

Lemma add_background_offset_raises_run depth W fg im bg_mode color bg bgv
    padding shadow_opacity shadow_offset :
  images W !! fg = Some im -> 0 <= width im -> 0 <= height im ->
  holds W bg bgv -> shadow_offset <> (0, 0) ->
  exists l,
    add_background K (S depth) fg bg_mode color bg padding true
      shadow_opacity shadow_offset W = (Raise ValueError, mkWorld l (masks W))
    /\ keeps W l.
Proof.
  intros Hfg Hw Hh Hbg Hoff. cbn [add_background]. rewrite bind_bind.
  pose proof (create_shadow_spec K W fg im padding shadow_opacity shadow_offset
                Hfg Hw Hh) as Hsh.
  cbv zeta in Hsh.
  set (l := (images W ++ [shadow_layer im shadow_opacity]) ++ [_]) in Hsh.
  assert (Hl : keeps W l) by (unfold l; do 2 apply keeps_app; apply keeps_refl).
  destruct (_ || _) in Hsh.
  { rewrite (bind_Raise _ _ _ _ _ Hsh). eauto. }
  destruct Hsh as (canvas & Hsize & Hrun).
  rewrite (bind_Ok _ _ _ _ _ Hrun), bind_ret.
  set (W1 := mkWorld (l ++ [canvas]) (masks W)).
  assert (Hk1 : keeps W (images W1)) by now apply keeps_app.
  assert (Hfg1 : images W1 !! fg = Some im) by now apply Hk1.
  assert (Hbg1 : holds W1 bg bgv) by now apply (holds_keeps W).
  pose proof (create_background_spec K W1 fg im bg_mode color bg bgv padding
                Hfg1 Hbg1) as Hback.
  destruct (backdrop K im bg_mode color bgv padding) as [back | e] eqn:Eback.
  2:{ rewrite (bind_Raise _ _ _ _ _ Hback).
      rewrite (backdrop_raises K _ _ _ _ _ _ Eback). eauto. }
  destruct Hback as (l1 & Hrun1 & Hkeep1).
  rewrite (bind_Ok _ _ _ _ _ Hrun1), bind_bind.
  erewrite bind_Raise.
  2:{ apply Image_alpha_composite_mismatch with (ia := back) (ib := canvas).
      - cbn [images]. apply lookup_fresh.
      - cbn [images]. apply lookup_kept, Hkeep1. cbn [W1 images].
        apply lookup_fresh.
      - rewrite (backdrop_size K _ _ _ _ _ _ Eback), Hsize. unfold canvas_size.
        destruct shadow_offset as [dx dy]. cbn [fst snd]. intros [= H1 H2].
        apply Hoff. f_equal; lia. }
  eexists. split; [reflexivity |].
  apply keeps_app. intros i x Hx. apply Hkeep1. now apply Hk1.
Qed.

Lemma add_background_shadow_raises_run depth W fg im bg_mode color bg bgv
    padding shadow_opacity shadow_offset :
  images W !! fg = Some im -> 0 <= width im -> 0 <= height im ->
  holds W bg bgv ->
  exists l,
    add_background K (S (S depth)) fg bg_mode color bg padding true
      shadow_opacity shadow_offset W = (Raise ValueError, mkWorld l (masks W))
    /\ keeps W l.
Proof.
  intros Hfg Hw Hh Hbg.
  destruct (decide (shadow_offset = (0, 0))) as [-> | Hoff].
  2:{ now apply add_background_offset_raises_run with (im := im) (bgv := bgv). }
  remember (S depth) as depth1 eqn:Hdepth.
  cbn [add_background]. rewrite bind_bind.
  pose proof (create_shadow_spec K W fg im padding shadow_opacity (0, 0)
                Hfg Hw Hh) as Hsh.
  cbv zeta in Hsh.
  set (l := (images W ++ [shadow_layer im shadow_opacity]) ++ [_]) in Hsh.
  assert (Hl : keeps W l) by (unfold l; do 2 apply keeps_app; apply keeps_refl).
  destruct (_ || _) in Hsh.
  { rewrite (bind_Raise _ _ _ _ _ Hsh). eauto. }
  destruct Hsh as (canvas & Hsize & Hrun).
  rewrite (bind_Ok _ _ _ _ _ Hrun), bind_ret.
  set (W1 := mkWorld (l ++ [canvas]) (masks W)).
  assert (Hk1 : keeps W (images W1)) by now apply keeps_app.
  assert (Hfg1 : images W1 !! fg = Some im) by now apply Hk1.
  assert (Hbg1 : holds W1 bg bgv) by now apply (holds_keeps W).
  pose proof (create_background_spec K W1 fg im bg_mode color bg bgv padding
                Hfg1 Hbg1) as Hback.
  destruct (backdrop K im bg_mode color bgv padding) as [back | e] eqn:Eback.
  2:{ rewrite (bind_Raise _ _ _ _ _ Hback).
      rewrite (backdrop_raises K _ _ _ _ _ _ Eback). eauto. }
  destruct Hback as (l1 & Hrun1 & Hkeep1).
  rewrite (bind_Ok _ _ _ _ _ Hrun1), bind_bind.
  erewrite bind_Ok.
  2:{ apply Image_alpha_composite_run with (ia := back) (ib := canvas).
      - cbn [images]. apply lookup_fresh.
      - cbn [images]. apply lookup_kept, Hkeep1. cbn [W1 images].
        apply lookup_fresh.
      - rewrite (backdrop_size K _ _ _ _ _ _ Eback), Hsize. unfold canvas_size.
        cbn [fst snd]. f_equal; lia. }
  subst depth1. cbn [images masks].
  lazymatch goal with
  | |- ex (fun _ => bind _ _ ?Wx = _ /\ _) => set (W3 := Wx)
  end.
  assert (Hk3 : keeps W (images W3)).
  { cbn [W3 images]. do 2 apply keeps_app. intros i x Hx. apply Hkeep1.
    now apply Hk1. }
  destruct (add_background_offset_raises_run depth W3 fg im "color"
              (0, 0, 0, 0) None None padding 30 (8, 8)) as (l3 & Hrun3 & Hkeep3);
    [now apply Hk3 | assumption | assumption | exact I | discriminate |].
  rewrite bind_bind, (bind_Raise _ _ _ _ _ Hrun3).
  exists l3. split; [reflexivity |]. intros i x Hx. apply Hkeep3. now apply Hk3.
Qed.

(** Neither stage changes an object that was in the store when it was
    called, whether it returns or raises: the capture, the background image
    and every other raster are after the call what they were before. *)
Theorem stages_keep_store_objects (depth : nat) (W : World) (fg : iref)
    (im : Image) (radius : Z) (bg_mode : string) (color : rgba)
    (bg : option iref) (bgv : option Image) (padding : Z)
    (shadow_enabled : bool) (shadow_opacity : Z) (shadow_offset : Z * Z) :
  images W !! fg = Some im -> holds W bg bgv ->
  0 <= width im -> 0 <= height im ->
  keeps W (images (snd (round_image K fg radius W)))
  /\ keeps W (images (snd (add_background K (S (S depth)) fg bg_mode color bg
                             padding shadow_enabled shadow_opacity
                             shadow_offset W))).
Proof.
  intros Hfg Hbg Hw Hh. split; [now apply round_image_keeps with (im := im) |].
  destruct shadow_enabled.
  - destruct (add_background_shadow_raises_run depth W fg im bg_mode color bg
                bgv padding shadow_opacity shadow_offset Hfg Hw Hh Hbg)
      as (l & -> & Hkeep). exact Hkeep.
  - pose proof (add_background_flat_spec K (S depth) W fg im bg_mode color bg
                  bgv padding shadow_opacity shadow_offset Hfg Hbg) as Hrun.
    destruct (composed K im bg_mode color bgv padding) as [out | e].
    + destruct Hrun as (l & -> & Hkeep). cbn [snd images]. now apply keeps_app.
    + rewrite Hrun. apply keeps_refl.
Qed.

(** The stages hand back well-formed rasters (as many pixels as the size
    says) when they are given well-formed ones. *)
Theorem stages_keep_rasters_well_formed (depth : nat) (W : World) (fg : iref)
    (im : Image) (radius : Z) (bg_mode : string) (color : rgba)
    (bg : option iref) (bgv : option Image) (padding shadow_opacity : Z)
    (shadow_offset : Z * Z) :
  draw_keeps_length K -> lanczos_fills K ->
  images W !! fg = Some im -> holds W bg bgv -> wf_image im ->
  match bgv with Some b => wf_image b | None => True end ->
  (exists out, result_of (round_image K fg radius W) = Ok out /\ wf_image out)
  /\ (forall out,
        result_of (add_background K (S depth) fg bg_mode color bg padding false
                     shadow_opacity shadow_offset W) = Ok out ->
        wf_image out).
Proof.
  intros Hdraw Hl Hfg Hbg Hwf Hbgwf. pose proof Hwf as (Hw & Hh & _). split.
  - destruct (round_image_spec K W fg im radius Hfg Hw Hh)
      as (r & W' & -> & Hr & _).
    cbn [result_of]. rewrite Hr. eexists. split; [reflexivity |].
    now apply wf_round_value.
  - intros out.
    pose proof (add_background_flat_spec K depth W fg im bg_mode color bg bgv
                  padding shadow_opacity shadow_offset Hfg Hbg) as Hrun.
    unfold composed in Hrun.
    destruct (backdrop K im bg_mode color bgv padding) as [back | e] eqn:Hback.
    + destruct Hrun as (l & -> & _). cbn [result_of images].
      rewrite lookup_fresh. intros [= <-]. apply wf_framed.
      now apply (wf_backdrop im bg_mode color bgv padding).
    + rewrite Hrun. discriminate.
Qed.

(** ** The shadow canvas *)

(** The canvas the shadow block ends with, when its size is not negative:
    transparent, of size [(w + 2p + dx, h + 2p + dy)], with the blurred layer
    copied at [(p + dx, p + dy)] and clipped to the canvas.  No pixel outside
    that rectangle carries any shadow. *)
Theorem shadow_canvas_pixels (W : World) (fg : iref) (im : Image)
    (padding shadow_opacity : Z) (shadow_offset : Z * Z) :
  let sz := (width im + 2 * padding + fst shadow_offset,
             height im + 2 * padding + snd shadow_offset) in
  let blurred :=
    mkImage (size im)
      (gaussian_blur K (size im) (data (shadow_layer im shadow_opacity)) 10) in
  images W !! fg = Some im -> 0 <= width im -> 0 <= height im ->
  0 <= fst sz -> 0 <= snd sz ->
  exists r W' canvas,
    create_shadow K fg padding shadow_opacity shadow_offset W = (Ok r, W')
    /\ images W' !! r = Some canvas
    /\ size canvas = sz
    /\ forall x y, in_bounds sz x y = true ->
         getpixel canvas x y
         = Some (match getpixel blurred (x - (padding + fst shadow_offset))
                         (y - (padding + snd shadow_offset)) with
                 | Some s => s
                 | None => (0, 0, 0, 0)
                 end).
Proof.
  intros sz blurred Hfg Hw Hh Hsw Hsh. unfold create_shadow.
  rewrite (bind_Ok _ _ _ _ _ (get_image_run _ _ _ Hfg)).
  rewrite (bind_Ok _ _ _ _ _ (Image_new_run _ _ _ Hw Hh)).
  erewrite bind_Ok.
  2:{ apply Image_filter_run. cbn [images]. apply lookup_fresh. }
  cbn [images masks size data]. fold sz.
  rewrite (bind_Ok _ _ _ _ _ (Image_new_run sz _ _ Hsw Hsh)).
  erewrite bind_Ok.
  2:{ eapply Image_paste_run; cbn [images].
      - apply lookup_fresh.
      - apply lookup_kept, lookup_fresh. }
  cbn [ret images masks size fst snd]. rewrite insert_fresh.
  eexists _, _, _. split; [reflexivity |]. cbn [images].
  split; [apply lookup_fresh |]. split; [reflexivity |].
  intros x y Hb.
  rewrite (getpixel_paste_data _ (mkImage sz _) _ None _ _ _ _ (0, 0, 0, 0)).
  - reflexivity.
  - apply (getpixel_solid sz (0, 0, 0, 0) x y Hb).
Qed.

End StageProperties.

(** * Further properties of the editor *)

Lemma in_store_Ok {A} (m : M World A) s a W' :
  m (store s) = (Ok a, W') -> in_store m s = (Ok a, mkApp (self s) W').
Proof. intros H. unfold in_store. now rewrite H. Qed.

Lemma in_store_Raise {A} (m : M World A) s e W' :
  m (store s) = (Raise e, W') -> in_store m s = (Raise e, mkApp (self s) W').
Proof. intros H. unfold in_store. now rewrite H. Qed.

Lemma keeps_trans W W' l :
  keeps W (images W') -> keeps W' l -> keeps W l.
Proof. intros H1 H2 i x Hx. now apply H2, H1. Qed.

Section RenderProperties.

Variable K : Kernels.

Lemma render_shadow_run (depth : nat) (s : App) (original : iref)
    (im : Image) (bgv : option Image) :
  original_image (self s) = Some original ->
  images (store s) !! original = Some im ->
  0 <= width im -> 0 <= height im ->
  holds (store s) (bg_image (config (self s))) bgv ->
  shadow_enabled (config (self s)) = true ->
  exists W',
    render K (S (S depth)) s = (Raise ValueError, mkApp (self s) W')
    /\ keeps (store s) (images W').
Proof.
  intros Ho Him Hw Hh Hbg Hshadow. unfold render, apply_effects.
  rewrite (bind_Ok _ _ s _ s eq_refl : bind get_self _ s = _), Ho.
  destruct (round_image_spec K (store s) original im
              (corner_radius (config (self s))) Him Hw Hh)
    as (sc & W1 & Hrun & Hsc & Hkeep).
  rewrite (bind_Ok _ _ _ _ _ (in_store_Ok _ _ _ _ Hrun)).
  set (im1 := if _ <=? 0 then im else _) in Hsc.
  assert (Hsize : size im1 = size im)
    by (unfold im1; now destruct (_ <=? 0)).
  destruct (add_background_shadow_raises_run K depth W1 sc im1
              (bg_mode (config (self s))) (bg_color (config (self s)))
              (bg_image (config (self s))) bgv (padding (config (self s)))
              (shadow_opacity (config (self s))) (8, 8))
    as (l & Hrun2 & Hkeep2); try assumption.
  - unfold width. now rewrite Hsize.
  - unfold height. now rewrite Hsize.
  - now apply (holds_keeps (store s)).
  - erewrite bind_Raise.
    2:{ apply in_store_Raise. cbn [store]. unfold add_background_default.
        rewrite Hshadow. exact Hrun2. }
    cbn [self]. eexists. split; [reflexivity |]. cbn [images].
    now apply (keeps_trans _ W1).
Qed.

Lemma keeps_length W l :
  keeps W l -> (length (images W) <= length l)%nat.
Proof.
  intros H. destruct (le_lt_dec (length (images W)) (length l)) as [| Hlt];
    [assumption | exfalso].
  destruct (lookup_lt_is_Some_2 (images W) (length l) Hlt) as [x Hx].
  apply H, lookup_lt_Some in Hx. lia.
Qed.

(** The reference [round_image] hands back: the one it was given, or one
    the store did not hold. *)
Lemma round_image_ref W r im radius :
  images W !! r = Some im -> 0 <= width im -> 0 <= height im ->
  exists r' W',
    round_image K r radius W = (Ok r', W')
    /\ images W' !! r' = Some (round_value K im radius)
    /\ keeps W (images W')
    /\ (r' = r \/ (length (images W) <= r')%nat).
Proof.
  intros Hr Hw Hh. unfold round_value.
  destruct (Z.leb_spec radius 0) as [H | H].
  - exists r, W. rewrite round_image_nonpositive by assumption.
    auto using keeps_refl.
  - eexists _, _. split; [now apply round_image_run with (im := im) |].
    cbn [images]. split; [apply lookup_fresh |].
    split; [apply keeps_app, keeps_refl | right; lia].
Qed.

(** [apply_effects] is its guard, the three stage calls and the assignment
    to [final_image]. *)
Lemma apply_effects_stages (depth : nat) (s : App) :
  render K depth s
  = match original_image (self s) with
    | None => (Ok tt, s)
    | Some original =>
        match render_stages K depth (config (self s)) original (store s) with
        | (Ok final, W') =>
            (Ok tt, mkApp (set_final_image (Some final) (self s)) W')
        | (Raise e, W') => (Raise e, mkApp (self s) W')
        end
    end.
Proof.
  unfold render, apply_effects, render_stages, bind, get_self, in_store,
    set_self, ret.
  destruct (original_image (self s)) as [original |]; [| reflexivity].
  cbn [self store].
  destruct (round_image K original _ _) as [[sc | e] W1]; cbn [self store];
    [| reflexivity].
  destruct (add_background_default K depth sc _ _ _ _ _ _ _) as [[bg | e] W2];
    cbn [self store]; [| reflexivity].
  destruct (round_image K bg _ _) as [[final | e] W3]; reflexivity.
Qed.

Lemma render_stages_run (depth : nat) (W : World) (c : RenderConfig)
    (original : iref) (im : Image) (bgv : option Image) :
  images W !! original = Some im ->
  0 <= width im -> 0 <= height im -> 0 <= padding c ->
  holds W (bg_image c) bgv ->
  bg_mode c <> "image"%string \/ bgv = None \/ (0 < width im /\ 0 < height im) ->
  shadow_enabled c = false ->
  exists final W' out,
    render_stages K (S depth) c original W = (Ok final, W')
    /\ images W !! final = None
    /\ images W' !! final = Some out
    /\ rendered K c im bgv = Ok out
    /\ size out = canvas_size im (padding c)
    /\ keeps W (images W').
Proof.
  intros Him Hw Hh Hp Hbg Hmode Hshadow. unfold render_stages.
  destruct (round_image_ref W original im (corner_radius c) Him Hw Hh)
    as (sc & W1 & Hrun & Hsc & Hkeep & _).
  rewrite (bind_Ok _ _ _ _ _ Hrun).
  set (im1 := round_value K im (corner_radius c)) in *.
  assert (Hsize : size im1 = size im)
    by (unfold im1, round_value; now destruct (_ <=? 0)).
  assert (Hw1 : width im1 = width im) by (unfold width; now rewrite Hsize).
  assert (Hh1 : height im1 = height im) by (unfold height; now rewrite Hsize).
  destruct (add_background_flat_run K depth W1 sc im1 (bg_mode c) (bg_color c)
              (bg_image c) bgv (padding c) (shadow_opacity c) (8, 8))
    as (back & l & Hback & Hrun2 & Hkeep2); try assumption.
  - now apply (holds_keeps W).
  - now rewrite Hw1.
  - now rewrite Hh1.
  - now rewrite Hw1, Hh1.
  - erewrite bind_Ok.
    2:{ unfold add_background_default. rewrite Hshadow. exact Hrun2. }
    set (with_bg := framed K back im1 (padding c)).
    assert (Hbsize : size with_bg = canvas_size im (padding c)).
    { cbn [with_bg framed size]. rewrite (backdrop_size K _ _ _ _ _ _ Hback).
      unfold canvas_size. now rewrite Hw1, Hh1. }
    destruct (round_image_ref (mkWorld (l ++ [with_bg]) (masks W1))
                (length l) with_bg (corner_radius c))
      as (final & W3 & Hrun3 & Hfinal & Hkeep3 & Href).
    { cbn [images]. apply lookup_fresh. }
    { unfold width. rewrite Hbsize. cbn. lia. }
    { unfold height. rewrite Hbsize. cbn. lia. }
    rewrite Hrun3. exists final, W3. eexists.
    split; [reflexivity |]. split; [| split; [exact Hfinal |]].
    + apply lookup_ge_None_2.
      pose proof (keeps_length _ _ Hkeep) as H1.
      pose proof (keeps_length _ _ Hkeep2) as H2.
      cbn [images] in Href. rewrite length_app in Href. cbn in Href.
      destruct Href as [-> | Href]; lia.
    + split; [| split].
      * unfold rendered, composed. fold im1. rewrite Hback. reflexivity.
      * rewrite <- Hbsize. unfold round_value. now destruct (_ <=? 0).
      * apply (keeps_trans _ W1); [exact Hkeep |].
        intros i x Hx. apply Hkeep3. cbn [images].
        now apply lookup_kept, Hkeep2.
Qed.

(** With [shadow_enabled] set, which is how the editor starts, every render
    of a capture raises [ValueError]: the editor keeps its [final_image] and
    all its other fields, and the rasters of the store are untouched. *)
Theorem render_with_shadow_raises (depth : nat) (s : App) (original : iref)
    (im : Image) (bgv : option Image) :
  original_image (self s) = Some original ->
  images (store s) !! original = Some im ->
  0 <= width im -> 0 <= height im ->
  holds (store s) (bg_image (config (self s))) bgv ->
  shadow_enabled (config (self s)) = true ->
  exists W',
    render K (S (S depth)) s = (Raise ValueError, mkApp (self s) W')
    /\ keeps (store s) (images W').
Proof. apply render_shadow_run. Qed.

(** The three stage calls of [apply_effects], with the shadow off, a padding
    that is not negative, a canvas within the sizes Pillow allocates, and
    either no background image in use (any mode but ["image"], or no image
    set) or a capture with pixels: they return a raster the store did not
    hold, the rounded capture framed by the background and rounded again, of
    size [(w + 2p, h + 2p)]; the capture and every other raster of the store
    are untouched. *)
Theorem render_stages_flat (depth : nat) (W : World) (c : RenderConfig)
    (original : iref) (im : Image) (bgv : option Image) :
  images W !! original = Some im ->
  0 <= width im -> 0 <= height im -> 0 <= padding c ->
  within_limits (canvas_size im (padding c)) ->
  holds W (bg_image c) bgv ->
  bg_mode c <> "image"%string \/ bgv = None \/ (0 < width im /\ 0 < height im) ->
  shadow_enabled c = false ->
  exists final W' out,
    render_stages K (S depth) c original W = (Ok final, W')
    /\ images W !! final = None
    /\ images W' !! final = Some out
    /\ rendered K c im bgv = Ok out
    /\ size out = canvas_size im (padding c)
    /\ keeps W (images W').
Proof. intros Him Hw Hh Hp _. now apply render_stages_run. Qed.


(** A render never changes a raster of the store, whatever the
    configuration and whether it returns or raises. *)
Lemma render_keeps depth s original im bgv :
  original_image (self s) = Some original ->
  images (store s) !! original = Some im ->
  0 <= width im -> 0 <= height im ->
  holds (store s) (bg_image (config (self s))) bgv ->
  keeps (store s) (images (store (snd (render K (S (S depth)) s)))).
Proof.
  intros Ho Him Hw Hh Hbg.
  destruct (shadow_enabled (config (self s))) eqn:Hshadow.
  { destruct (render_shadow_run depth s original im bgv Ho Him Hw Hh
                Hbg Hshadow) as (W' & -> & Hkeep). exact Hkeep. }
  set (c := config (self s)) in *.
  unfold render, apply_effects.
  rewrite (bind_Ok _ _ s _ s eq_refl : bind get_self _ s = _), Ho.
  destruct (round_image_spec K (store s) original im (corner_radius c)
              Him Hw Hh) as (sc & W1 & Hrun & Hsc & Hkeep).
  rewrite (bind_Ok _ _ _ _ _ (in_store_Ok _ _ _ _ Hrun)).
  pose proof (add_background_flat_spec K (S depth) W1 sc _ (bg_mode c)
                (bg_color c) (bg_image c) bgv (padding c) (shadow_opacity c)
                (8, 8) Hsc (holds_keeps _ _ _ _ Hbg Hkeep)) as Hflat.
  destruct (composed K _ (bg_mode c) (bg_color c) bgv (padding c))
    as [with_bg | e].
  - destruct Hflat as (l & Hrun2 & Hkeep2).
    erewrite bind_Ok.
    2:{ apply in_store_Ok. cbn [store]. unfold add_background_default.
        fold c. rewrite Hshadow. exact Hrun2. }
    pose proof (round_image_keeps K (mkWorld (l ++ [with_bg]) (masks W1))
                  (length l) with_bg (corner_radius c)) as Hkeep3.
    unfold bind, in_store, set_self. cbn [self store]. fold c.
    destruct (round_image K (length l) (corner_radius c) _) as [[f | e] W3];
      cbn [snd store] in *;
      (apply (keeps_trans _ W1); [exact Hkeep |]);
      intros i x Hx; apply Hkeep3;
      try (cbn [images]; apply lookup_fresh);
      cbn [images]; now apply lookup_kept, Hkeep2.
  - erewrite bind_Raise.
    2:{ apply in_store_Raise. cbn [store]. unfold add_background_default.
        fold c. rewrite Hshadow. exact Hflat. }
    exact Hkeep.
Qed.

(** After a capture the editor's [original_image] refers to a raster equal
    to the one captured, whether the render that ends the action returned
    or raised; and no raster that was in the store before the action has
    changed (the former capture, which the history may refer to, among
    them). *)
Theorem capture_stores_raster (depth : nat) (s : App) (captured : Image)
    (bgv : option Image) :
  0 <= width captured -> 0 <= height captured ->
  holds (store s) (bg_image (config (self s))) bgv ->
  let s' := snd (capture K (S (S depth)) captured s) in
  exists r,
    original_image (self s') = Some r
    /\ images (store s') !! r = Some captured
    /\ keeps (store s) (images (store s')).
Proof.
  intros Hw Hh Hbg s'. unfold s', capture. rewrite take_screenshot_run.
  set (s1 := mkApp _ _).
  assert (Hk0 : keeps (store s) (images (store s1))).
  { cbn [s1 store images]. intros i x Hx. now apply lookup_app_l_Some. }
  assert (Hnew : images (store s1) !! S (length (images (store s)))
                 = Some captured).
  { cbn [s1 store images].
    rewrite lookup_app_r by lia.
    now replace (S (length (images (store s))) - length (images (store s)))%nat
      with 1%nat by lia. }
  assert (Hcfg : config (self s1) = config (self s)).
  { cbn [s1 self]. now destruct (original_image (self s)). }
  assert (Ho1 : original_image (self s1) = Some (S (length (images (store s)))))
    by reflexivity.
  pose proof (render_keeps depth s1 _ captured bgv Ho1 Hnew Hw Hh) as Hk1.
  rewrite Hcfg in Hk1. specialize (Hk1 (holds_keeps _ _ _ _ Hbg Hk0)).
  destruct (apply_effects_history (round_image K)
              (add_background_default K (S (S depth))) s1) as (_ & Ho & _).
  cbv zeta in Ho. fold (render K (S (S depth))) in Ho |- *.
  exists (S (length (images (store s)))). split; [now rewrite Ho |].
  split; [now apply Hk1 |]. now apply (keeps_trans _ (store s1)).
Qed.


(** A capture made while [shadow_enabled] is set ends in [ValueError], and
    [final_image] is what it was: nothing new is there to show. *)
Theorem capture_with_shadow_raises (depth : nat) (s : App) (captured : Image)
    (bgv : option Image) :
  0 <= width captured -> 0 <= height captured ->
  holds (store s) (bg_image (config (self s))) bgv ->
  shadow_enabled (config (self s)) = true ->
  let r := capture K (S (S depth)) captured s in
  fst r = Raise ValueError
  /\ final_image (self (snd r)) = final_image (self s).
Proof.
  intros Hw Hh Hbg Hshadow r. unfold r, capture. rewrite take_screenshot_run.
  set (s1 := mkApp _ _).
  assert (Hk0 : keeps (store s) (images (store s1))).
  { cbn [s1 store images]. intros i x Hx. now apply lookup_app_l_Some. }
  assert (Hnew : images (store s1) !! S (length (images (store s)))
                 = Some captured).
  { cbn [s1 store images].
    rewrite lookup_app_r by lia.
    now replace (S (length (images (store s))) - length (images (store s)))%nat
      with 1%nat by lia. }
  assert (Hcfg : config (self s1) = config (self s)).
  { cbn [s1 self]. now destruct (original_image (self s)). }
  assert (Hfin : final_image (self s1) = final_image (self s)).
  { cbn [s1 self]. now destruct (original_image (self s)). }
  destruct (render_shadow_run depth s1 (S (length (images (store s)))) captured
              bgv eq_refl Hnew Hw Hh) as (W' & Hrun & _).
  - rewrite Hcfg. now apply (holds_keeps (store s)).
  - now rewrite Hcfg.
  - fold (render K (S (S depth))). rewrite Hrun. cbn [fst snd self].
    split; [reflexivity | exact Hfin].
Qed.

End RenderProperties.

(** * The hotkey, the tooltips and the icons *)

Lemma land_bit (flags n : Z) :
  0 <= n -> truthy (Z.land flags (Z.shiftl 1 n)) = Z.testbit flags n.
Proof.
  intros Hn. rewrite Z.shiftl_1_l.
  assert (H : Z.land flags (2 ^ n) = if Z.testbit flags n then 2 ^ n else 0).
  { apply Z.bits_inj'. intros m Hm. rewrite Z.land_spec, Z.pow2_bits_eqb by lia.
    destruct (Z.eqb_spec n m) as [-> | Hne].
    - rewrite andb_true_r. destruct (Z.testbit flags m) eqn:E.
      + now rewrite Z.pow2_bits_true.
      + now rewrite Z.bits_0.
    - rewrite andb_false_r. destruct (Z.testbit flags n).
      + rewrite Z.pow2_bits_false by lia. reflexivity.
      + now rewrite Z.bits_0. }
  rewrite H. unfold truthy. destruct (Z.testbit flags n).
  - destruct (Z.eqb_spec (2 ^ n) 0) as [E |]; [| reflexivity].
    pose proof (Z.pow_pos_nonneg 2 n). lia.
  - reflexivity.
Qed.


(** Other modifier flags held with Command (Shift, Control, Option, Caps
    Lock, ...) make no difference to the hotkey. *)
Theorem tap_callback_other_modifiers (event_type flags other keycode : Z)
    (refcon : option Refcon) :
  Z.testbit other 20 = false ->
  fst (_tap_callback event_type (mkEvent (Z.lor flags other) keycode) refcon)
  = fst (_tap_callback event_type (mkEvent flags keycode) refcon).
Proof.
  intros Hother. unfold _tap_callback, COMMAND_FLAG_MASK. cbn [event_flags].
  rewrite !land_bit by lia. rewrite Z.lor_spec, Hother, orb_false_r.
  destruct (event_type =? kCGEventKeyDown); [| reflexivity].
  destruct (Z.testbit flags 20 && _); [| reflexivity].
  now destruct refcon as [[[|] [|] [|]] |].
Qed.

Lemma tap_callback_other_modifiers_witness :
  fst (_tap_callback kCGEventKeyDown
         (mkEvent (Z.lor (Z.shiftl 1 20) (Z.shiftl 1 17)) 28)
         (Some (mkRefcon true true true)))
  = fst (_tap_callback kCGEventKeyDown (mkEvent (Z.shiftl 1 20) 28)
           (Some (mkRefcon true true true))).
Proof.
  apply (tap_callback_other_modifiers kCGEventKeyDown (Z.shiftl 1 20)
           (Z.shiftl 1 17) 28 (Some (mkRefcon true true true))).
  reflexivity.
Defined.

(** ** [GlobalHotkeyListener] *)

Lemma listener_start_disables l created tap :
  created <> tap ->
  eventTap (listener_step l (Start created)) <> Some tap
  /\ (In (CGEventTapEnable tap false) (calls (listener_step l (Start created))) ->
      In (CGEventTapEnable tap false) (calls l)).
Proof.
  intros Hnew. cbn. split; [congruence |].
  rewrite !in_app_iff. cbn. intuition discriminate.
Qed.

Lemma listener_step_disables l op tap :
  eventTap l <> Some tap ->
  match op with Start created => created <> tap | Stop => True end ->
  eventTap (listener_step l op) <> Some tap
  /\ (In (CGEventTapEnable tap false) (calls (listener_step l op)) ->
      In (CGEventTapEnable tap false) (calls l)).
Proof.
  intros Hheld Hop. destruct op as [created |].
  - now apply listener_start_disables.
  - cbn. unfold listener_stop. destruct (eventTap l) as [t |] eqn:E; cbn.
    + split; [discriminate |]. rewrite in_app_iff. cbn.
      intros [H | [[= ->] | []]]; [assumption | congruence].
    + now rewrite E.
Qed.

(** [start] on a listener that holds a tap forgets that tap without
    disabling it, and nothing the listener does later disables it: [stop]
    only ever disables the tap held at that moment.  (Quartz hands out a new
    tap at each creation.) *)
Theorem listener_restart_orphans_tap (l : Listener) (tap created : nat)
    (ops : list listener_op) :
  eventTap l = Some tap -> created <> tap ->
  Forall (fun op => match op with Start c => c <> tap | Stop => True end) ops ->
  ~ In (CGEventTapEnable tap false) (calls l) ->
  ~ In (CGEventTapEnable tap false)
       (calls (foldl listener_step l (Start created :: ops))).
Proof.
  intros Hheld Hnew Hops Hnot Hin. apply Hnot. revert Hin. cbn [foldl].
  destruct (listener_start_disables l created tap Hnew) as [Hh Hc].
  revert Hh Hc. generalize (listener_step l (Start created)).
  induction Hops as [| op ops Hop _ IH]; intros l1 Hh Hc; cbn [foldl].
  - exact Hc.
  - destruct (listener_step_disables l1 op tap Hh Hop) as [Hh' Hc'].
    apply IH; [exact Hh' |]. intros Hin. now apply Hc, Hc'.
Qed.

Lemma listener_restart_orphans_tap_witness :
  ~ In (CGEventTapEnable 0 false)
       (calls (foldl listener_step
                 (fst (listener_start (Some 0%nat) (mkListener None [])))
                 [Start 1; Stop; Stop])).
Proof.
  apply (listener_restart_orphans_tap
           (fst (listener_start (Some 0%nat) (mkListener None []))) 0 1
           [Stop; Stop]).
  - reflexivity.
  - discriminate.
  - repeat constructor.
  - cbn. intuition discriminate.
Defined.

(** ** [ToolTip] *)

Lemma show_tip_consistent widget t tk :
  match tip_window t with
  | Some tw => only_window tw tk
  | None => no_window tk
  end ->
  match tip_window (fst (show_tip widget t tk)) with
  | Some tw => only_window tw (snd (show_tip widget t tk))
  | None => no_window (snd (show_tip widget t tk))
  end.
Proof.
  intros H. unfold show_tip.
  destruct (tip_window t) as [tw |] eqn:E; cbn [bound orb].
  { cbn. now rewrite E. }
  destruct (text t =? "")%string; [cbn; now rewrite E |].
  destruct (bbox_insert widget) as [[[x y] ?] ?]. cbn [fst snd tip_window].
  split.
  - eexists. split; [apply lookup_fresh | reflexivity].
  - intros i w Hi Hw. apply lookup_app_Some in Hi as [Hi | [Hlen Hi]].
    + rewrite (H i w Hi) in Hw. discriminate.
    + destruct (i - length tk)%nat as [| n] eqn:En; [lia |].
      now destruct n.
Qed.

Lemma hide_tip_consistent t tk :
  match tip_window t with
  | Some tw => only_window tw tk
  | None => no_window tk
  end ->
  tip_window (fst (hide_tip t tk)) = None /\ no_window (snd (hide_tip t tk)).
Proof.
  intros H. unfold hide_tip. destruct (tip_window t) as [tw |]; cbn [fst snd].
  2:{ now split. }
  split; [reflexivity |]. destruct H as [_ Hone]. intros i w Hi.
  unfold destroy, Tk in *. destruct (decide (i = tw)) as [-> | Hne].
  - rewrite list_lookup_alter_eq in Hi.
    destruct (tk !! tw); [| discriminate]. now injection Hi as <-.
  - rewrite list_lookup_alter_ne in Hi by congruence.
    destruct (alive w) eqn:Ha; [| reflexivity].
    now specialize (Hone i w Hi Ha).
Qed.

Lemma tip_run_consistent events s :
  match tip_window (fst s) with
  | Some tw => only_window tw (snd s)
  | None => no_window (snd s)
  end ->
  match tip_window (fst (tip_run events s)) with
  | Some tw => only_window tw (snd (tip_run events s))
  | None => no_window (snd (tip_run events s))
  end.
Proof.
  revert s. induction events as [| e events IH]; intros s H; [exact H |].
  apply IH. destruct e as [widget |]; cbn [tip_step].
  - now apply show_tip_consistent.
  - destruct (hide_tip_consistent (fst s) (snd s) H) as [Hn Hw].
    now rewrite Hn.
Qed.

(** However the pointer enters and leaves the widget, at most one tooltip
    window is alive at any time, and it is the one [tip_window] refers to:
    no window is ever left alive without the tooltip knowing it. *)
Theorem tooltip_single_window (events : list tip_event) (label : string)
    (tk : Tk) :
  no_window tk ->
  let s := tip_run events (mkToolTip label None, tk) in
  match tip_window (fst s) with
  | Some tw => only_window tw (snd s)
  | None => no_window (snd s)
  end.
Proof. intros H. now apply tip_run_consistent. Qed.

(** Once the pointer has left, no tooltip window is alive, whatever
    happened before. *)
Theorem tooltip_hidden_after_leave (events : list tip_event) (label : string)
    (tk : Tk) :
  no_window tk ->
  let s := tip_run (events ++ [Leave]) (mkToolTip label None, tk) in
  tip_window (fst s) = None /\ no_window (snd s).
Proof.
  intros H. cbv zeta. unfold tip_run. rewrite foldl_app. cbn [foldl tip_step].
  apply hide_tip_consistent.
  exact (tip_run_consistent events (mkToolTip label None, tk) H).
Qed.

(** A tooltip without text never opens a window. *)
Theorem tooltip_without_text (events : list tip_event) (tk : Tk) :
  tip_run events (mkToolTip "" None, tk) = (mkToolTip "" None, tk).
Proof.
  induction events as [| [widget |] events IH]; [reflexivity | |]; exact IH.
Qed.

Lemma tooltip_single_window_witness :
  let s := tip_run [Enter (mkWidget (1, 2, 3, 4) 100 200);
                    Enter (mkWidget (1, 2, 3, 4) 100 200); Leave;
                    Enter (mkWidget (5, 6, 7, 8) 10 20)]
             (mkToolTip "Crop" None, []) in
  match tip_window (fst s) with
  | Some tw => only_window tw (snd s)
  | None => no_window (snd s)
  end.
Proof.
  apply (tooltip_single_window
           [Enter (mkWidget (1, 2, 3, 4) 100 200);
            Enter (mkWidget (1, 2, 3, 4) 100 200); Leave;
            Enter (mkWidget (5, 6, 7, 8) 10 20)] "Crop" []).
  intros i w Hi. discriminate.
Defined.

Lemma tooltip_hidden_after_leave_witness :
  let s := tip_run ([Enter (mkWidget (1, 2, 3, 4) 100 200)] ++ [Leave])
             (mkToolTip "Crop" None, []) in
  tip_window (fst s) = None /\ no_window (snd s).
Proof.
  apply (tooltip_hidden_after_leave [Enter (mkWidget (1, 2, 3, 4) 100 200)]
           "Crop" []).
  intros i w Hi. discriminate.
Defined.

(** ** The icons *)

(** The loop over the icons never raises, and when it is over the
    dictionary has an entry for every name of the table, whether the file
    could be loaded or not: looking an icon up by a name of the table cannot
    fail. *)
Theorem load_icons_total (load : string -> M World nat)
    (items : list (string * string)) (icons : gmap string (option nat))
    (W : World) :
  exists icons' W',
    load_icons load items icons W = (Ok icons', W')
    /\ dom icons' = dom icons ∪ list_to_set (fst <$> items)
    /\ forall name, name ∈ fst <$> items -> is_Some (icons' !! name).
Proof.
  revert icons W. induction items as [| [name path] items IH]; intros icons W.
  - exists icons, W. cbn. split; [reflexivity |].
    split; [now rewrite (right_id_L ∅ (∪)) |].
    intros name H. now apply elem_of_nil in H.
  - cbn [load_icons].
    assert (Hstep : forall v W1,
               exists icons' W',
                 load_icons load items (<[name := v]> icons) W1 = (Ok icons', W')
                 /\ dom icons' = dom icons ∪ list_to_set (fst <$> (name, path) :: items)
                 /\ forall n, n ∈ fst <$> (name, path) :: items ->
                      is_Some (icons' !! n)).
    { intros v W1.
      destruct (IH (<[name := v]> icons) W1) as (icons' & W' & Hrun & Hdom & _).
      exists icons', W'. split; [exact Hrun |].
      assert (Hd : dom icons' = dom icons ∪ list_to_set (fst <$> (name, path) :: items)).
      { rewrite Hdom, dom_insert_L. cbn.
        now rewrite (comm_L (∪) {[name]} (dom icons)), (assoc_L (∪)). }
      split; [exact Hd |]. intros n Hn. apply elem_of_dom. rewrite Hd.
      apply elem_of_union_r. now apply elem_of_list_to_set. }
    destruct (load path W) as [[img | e] W1]; apply Hstep.
Qed.

(** ** Further runs on concrete inputs *)

Lemma sample_lanczos_fills : lanczos_fills Sample.kernels.
Proof.
  intros im sz. cbn. unfold Sample.lanczos.
  now rewrite length_imap, length_replicate.
Qed.

Lemma round_image_twice_witness :
  result_of ((once <- round_image Sample.kernels 0%nat 1 ;;
              round_image Sample.kernels once 1)
               (Sample.holding Sample.clear3))
  = result_of (round_image Sample.kernels 0%nat 1 (Sample.holding Sample.clear3)).
Proof.
  apply (round_image_twice Sample.kernels (Sample.holding Sample.clear3) 0%nat
           Sample.clear3 1).
  - reflexivity.
  - unfold width. cbn. lia.
  - unfold height. cbn. lia.
Defined.

Lemma add_background_pixels_witness :
  exists out,
    result_of (add_background Sample.kernels 1 0%nat "color" Sample.white None 2
                 false 30 (8, 8) (Sample.holding Sample.dot)) = Ok out
    /\ size out = canvas_size Sample.dot 2
    /\ forall x y, in_bounds (canvas_size Sample.dot 2) x y = true ->
         getpixel out x y
         = Some (match getpixel Sample.dot (x - 2) (y - 2) with
                 | Some s => paste_px Sample.kernels (ink Sample.white) s (alpha_of s)
                 | None => ink Sample.white
                 end).
Proof.
  apply (add_background_pixels Sample.kernels 0 (Sample.holding Sample.dot)
           0%nat Sample.dot "color" Sample.white None None 2 30 (8, 8)).
  - reflexivity.
  - exact I.
  - unfold width. cbn. lia.
  - unfold height. cbn. lia.
  - lia.
  - left. discriminate.
Defined.

Lemma add_background_flat_refusal_witness :
  add_background Sample.kernels 1 0%nat "color" Sample.white None (-1) false 30
    (8, 8) (Sample.holding Sample.dot)
  = (Raise ValueError, Sample.holding Sample.dot).
Proof.
  refine (add_background_flat_refusal Sample.kernels 0
            (Sample.holding Sample.dot) 0%nat Sample.dot "color" Sample.white
            None None (-1) 30 (8, 8) eq_refl I _).
  unfold within_limits, MAX_SIDE. cbn. lia.
Defined.

Lemma stages_keep_store_objects_witness :
  keeps (Sample.holding Sample.dot)
    (images (snd (round_image Sample.kernels 0%nat 1 (Sample.holding Sample.dot))))
  /\ keeps (Sample.holding Sample.dot)
       (images (snd (add_background Sample.kernels 2 0%nat "color" Sample.white
                       None 2 true 30 (8, 8) (Sample.holding Sample.dot)))).
Proof.
  apply (stages_keep_store_objects Sample.kernels 0 (Sample.holding Sample.dot)
           0%nat Sample.dot 1 "color" Sample.white None None 2 true 30 (8, 8)).
  - reflexivity.
  - exact I.
  - unfold width. cbn. lia.
  - unfold height. cbn. lia.
Defined.

Lemma stages_keep_rasters_well_formed_witness :
  (exists out,
      result_of (round_image Sample.kernels 0%nat 1
                   (Sample.holding Sample.clear3)) = Ok out
      /\ wf_image out)
  /\ (forall out,
        result_of (add_background Sample.kernels 1 0%nat "color" Sample.white
                     None 2 false 30 (8, 8) (Sample.holding Sample.clear3))
        = Ok out ->
        wf_image out).
Proof.
  apply (stages_keep_rasters_well_formed Sample.kernels 0
           (Sample.holding Sample.clear3) 0%nat Sample.clear3 1 "color"
           Sample.white None None 2 30 (8, 8)).
  - exact sample_draw_keeps_length.
  - exact sample_lanczos_fills.
  - reflexivity.
  - exact I.
  - unfold wf_image, width, height. cbn. repeat split; lia.
  - exact I.
Defined.

Lemma shadow_canvas_pixels_witness :
  exists r W' canvas,
    create_shadow Sample.kernels 0%nat 2 30 (8, 8) (Sample.holding Sample.dot)
    = (Ok r, W')
    /\ images W' !! r = Some canvas
    /\ size canvas = (width Sample.dot + 2 * 2 + 8, height Sample.dot + 2 * 2 + 8)
    /\ forall x y,
         in_bounds (width Sample.dot + 2 * 2 + 8, height Sample.dot + 2 * 2 + 8)
           x y = true ->
         getpixel canvas x y
         = Some (match getpixel
                         (mkImage (size Sample.dot)
                            (gaussian_blur Sample.kernels (size Sample.dot)
                               (data (shadow_layer Sample.dot 30)) 10))
                         (x - (2 + 8)) (y - (2 + 8)) with
                 | Some s => s
                 | None => (0, 0, 0, 0)
                 end).
Proof.
  apply (shadow_canvas_pixels Sample.kernels (Sample.holding Sample.dot) 0%nat
           Sample.dot 2 30 (8, 8)).
  - reflexivity.
  - unfold width. cbn. lia.
  - unfold height. cbn. lia.
  - unfold width. cbn. lia.
  - unfold height. cbn. lia.
Defined.

Lemma render_with_shadow_raises_witness :
  exists W',
    render Sample.kernels 2 (Sample.editing (config setup_state) Sample.dot)
    = (Raise ValueError,
       mkApp (self (Sample.editing (config setup_state) Sample.dot)) W')
    /\ keeps (store (Sample.editing (config setup_state) Sample.dot)) (images W').
Proof.
  apply (render_with_shadow_raises Sample.kernels 0
           (Sample.editing (config setup_state) Sample.dot) 0%nat Sample.dot None).
  - reflexivity.
  - reflexivity.
  - unfold width. cbn. lia.
  - unfold height. cbn. lia.
  - exact I.
  - reflexivity.
Defined.

Lemma render_stages_flat_witness :
  exists final W' out,
    render_stages Sample.kernels 1 Sample.flat_config 0%nat
      (Sample.holding Sample.dot) = (Ok final, W')
    /\ images (Sample.holding Sample.dot) !! final = None
    /\ images W' !! final = Some out
    /\ rendered Sample.kernels Sample.flat_config Sample.dot None = Ok out
    /\ size out = canvas_size Sample.dot (padding Sample.flat_config)
    /\ keeps (Sample.holding Sample.dot) (images W').
Proof.
  apply (render_stages_flat Sample.kernels 0 (Sample.holding Sample.dot)
           Sample.flat_config 0%nat Sample.dot None).
  - reflexivity.
  - unfold width. cbn. lia.
  - unfold height. cbn. lia.
  - cbn. lia.
  - unfold within_limits, MAX_SIDE. cbn. lia.
  - exact I.
  - left. discriminate.
  - reflexivity.
Defined.


Lemma capture_stores_raster_witness :
  exists r,
    original_image
      (self (snd (capture Sample.kernels 2 Sample.half
                    (Sample.editing (config setup_state) Sample.dot))))
    = Some r
    /\ images
         (store (snd (capture Sample.kernels 2 Sample.half
                        (Sample.editing (config setup_state) Sample.dot))))
         !! r = Some Sample.half
    /\ keeps (store (Sample.editing (config setup_state) Sample.dot))
         (images
            (store (snd (capture Sample.kernels 2 Sample.half
                           (Sample.editing (config setup_state) Sample.dot))))).
Proof.
  apply (capture_stores_raster Sample.kernels 0
           (Sample.editing (config setup_state) Sample.dot) Sample.half None).
  - unfold width. cbn. lia.
  - unfold height. cbn. lia.
  - exact I.
Defined.

(** The tooltip opens at the pointer's first entry, 25 pixels right of and
    below the widget's insertion box in screen coordinates, and entering
    again while it is shown neither moves it nor opens a second window. *)
Theorem tooltip_stays_put (widget : Widget) (later : list tip_event)
    (label : string) (tk : Tk) :
  label <> ""%string -> Forall (fun e => e <> Leave) later ->
  tip_run (Enter widget :: later) (mkToolTip label None, tk)
  = (mkToolTip label (Some (length tk)),
     tk ++ [mkToplevel true true
              (let '(x, y, _, _) := bbox_insert widget in
               (x + (winfo_rootx widget + 25), y + (winfo_rooty widget + 25)))
              label]).
Proof.
  intros Hlabel Hlater. unfold tip_run. cbn [foldl tip_step fst snd].
  assert (Hshow : show_tip widget (mkToolTip label None) tk
                  = (mkToolTip label (Some (length tk)),
                     tk ++ [mkToplevel true true
                              (let '(x, y, _, _) := bbox_insert widget in
                               (x + (winfo_rootx widget + 25),
                                y + (winfo_rooty widget + 25)))
                              label])).
  { unfold show_tip. cbn [tip_window text bound orb].
    destruct (String.eqb_spec label ""); [contradiction |].
    now destruct (bbox_insert widget) as [[[x y] ?] ?]. }
  rewrite Hshow. generalize (tk ++ [mkToplevel true true
                                      (let '(x, y, _, _) := bbox_insert widget in
                                       (x + (winfo_rootx widget + 25),
                                        y + (winfo_rooty widget + 25)))
                                      label]).
  intros tk1. induction Hlater as [| e later He _ IH]; [reflexivity |].
  cbn [foldl]. destruct e as [w |]; [| contradiction]. exact IH.
Qed.

Lemma tooltip_stays_put_witness :
  tip_run (Enter (mkWidget (1, 2, 3, 4) 100 200)
             :: [Enter (mkWidget (5, 6, 7, 8) 10 20)])
    (mkToolTip "Crop" None, [])
  = (mkToolTip "Crop" (Some (length ([] : Tk))),
     [] ++ [mkToplevel true true
              (let '(x, y, _, _) := bbox_insert (mkWidget (1, 2, 3, 4) 100 200) in
               (x + (winfo_rootx (mkWidget (1, 2, 3, 4) 100 200) + 25),
                y + (winfo_rooty (mkWidget (1, 2, 3, 4) 100 200) + 25)))
              "Crop"]).
Proof.
  apply (tooltip_stays_put (mkWidget (1, 2, 3, 4) 100 200)
           [Enter (mkWidget (5, 6, 7, 8) 10 20)] "Crop" []).
  - discriminate.
  - repeat constructor. discriminate.
Defined.

Lemma capture_with_shadow_raises_witness :
  fst (capture Sample.kernels 2 Sample.dot Sample.fresh_editor)
  = Raise ValueError
  /\ final_image
       (self (snd (capture Sample.kernels 2 Sample.dot Sample.fresh_editor)))
     = final_image (self Sample.fresh_editor).
Proof.
  apply (capture_with_shadow_raises Sample.kernels 0 Sample.fresh_editor
           Sample.dot None).
  - unfold width. cbn. lia.
  - unfold height. cbn. lia.
  - exact I.
  - reflexivity.
Defined.
